(** * A shallow embedding of the code converter (src/utils/codeConverter.ts
      and src/utils/languageDetection.ts)

    The program is a pipeline of regular-expression rewrites over source
    text, a name-driven test simulator and a signature-based language
    sniffer.  Texts are lists of characters (code units below 256), regular
    expressions are syntax trees run by a backtracking matcher that follows
    the ECMAScript matching order (leftmost, greedy or lazy, first
    alternative first), and [String.prototype.replace] is a forward scan
    over the text. *)

From Stdlib Require Import Ascii String Bool Arith Lia List.
Import ListNotations.

(** ** Texts *)

Definition text := list ascii.

Definition lit (s : string) : text := list_ascii_of_string s.

Definition nl : ascii := ascii_of_nat 10.
Definition dquote : ascii := ascii_of_nat 34.

Definition text_eqb (a b : text) : bool :=
  if list_eq_dec ascii_dec a b then true else false.

Fixpoint starts_with (p s : text) : bool :=
  match p, s with
  | [], _ => true
  | _ :: _, [] => false
  | x :: p', y :: s' => Ascii.eqb x y && starts_with p' s'
  end.

(** [s.includes(w)] *)
Fixpoint includes (w s : text) : bool :=
  starts_with w s ||
  match s with
  | [] => false
  | _ :: s' => includes w s'
  end.

(** The declarative counterpart of [includes]. *)
Definition contains (w s : text) : Prop := exists a b, s = a ++ w ++ b.

(** [s.split('\n')], written for any separator character. *)
Fixpoint split_on (sep : ascii) (s : text) : list text :=
  match s with
  | [] => [[]]
  | c :: s' =>
      if Ascii.eqb c sep then [] :: split_on sep s'
      else match split_on sep s' with
           | [] => [[c]]
           | l :: ls => (c :: l) :: ls
           end
  end.

(** [lines.join(sep)] *)
Fixpoint join (sep : text) (ls : list text) : text :=
  match ls with
  | [] => []
  | [l] => l
  | l :: ls' => l ++ sep ++ join sep ls'
  end.

(** [s.repeat(n)] *)
Fixpoint repeat_text (s : text) (n : nat) : text :=
  match n with
  | 0 => []
  | S n' => s ++ repeat_text s n'
  end.

(** ** Character classes *)

Definition code (c : ascii) : nat := nat_of_ascii c.

Definition in_range (lo hi : nat) (c : ascii) : bool :=
  (lo <=? code c) && (code c <=? hi).

(** White space and line terminators of ECMAScript below code 256: tab, line
    feed, vertical tab, form feed, carriage return, space, no-break space. *)
Definition is_space (c : ascii) : bool :=
  in_range 9 13 c || (code c =? 32) || (code c =? 160).

Definition is_digit (c : ascii) : bool := in_range 48 57 c.

Definition is_word (c : ascii) : bool :=
  in_range 65 90 c || in_range 97 122 c || is_digit c || (code c =? 95).

Definition is_line_terminator (c : ascii) : bool :=
  (code c =? 10) || (code c =? 13).

Fixpoint mem_char (c : ascii) (cs : list ascii) : bool :=
  match cs with
  | [] => false
  | x :: cs' => Ascii.eqb c x || mem_char c cs'
  end.

Inductive cclass : Type :=
| CSpace                      (* \s *)
| CWord                       (* \w *)
| CDigit                      (* \d *)
| CDot                        (* .  *)
| CAny                        (* [\s\S] *)
| CNot (cs : list ascii).     (* [^...] *)

Definition in_class (k : cclass) (c : ascii) : bool :=
  match k with
  | CSpace => is_space c
  | CWord => is_word c
  | CDigit => is_digit c
  | CDot => negb (is_line_terminator c)
  | CAny => true
  | CNot cs => negb (mem_char c cs)
  end.

(** [s.trim()] *)
Fixpoint trim_start (s : text) : text :=
  match s with
  | [] => []
  | c :: s' => if is_space c then trim_start s' else s
  end.

Definition trim_end (s : text) : text := rev (trim_start (rev s)).

Definition trim (s : text) : text := trim_end (trim_start s).

(** ** Regular expressions *)

Inductive regex : Type :=
| Eps
| Chr (c : ascii)
| Cls (k : cclass)
| Seq (a b : regex)
| Alt (a b : regex)
| Star (a : regex)            (* a*  , greedy *)
| Lazy (a : regex)            (* a*? , lazy *)
| Grp (n : nat) (a : regex)   (* the n-th capturing group *)
| Bol                         (* ^ without the m flag *)
| EolM                        (* $ with the m flag *)
| WordB.                      (* \b *)

Definition Plus (a : regex) : regex := Seq a (Star a).
Definition Opt (a : regex) : regex := Alt a Eps.

Fixpoint Str_chars (s : text) : regex :=
  match s with
  | [] => Eps
  | [c] => Chr c
  | c :: s' => Seq (Chr c) (Str_chars s')
  end.

Definition Str (s : string) : regex := Str_chars (lit s).

Fixpoint Seqs (rs : list regex) : regex :=
  match rs with
  | [] => Eps
  | [r] => r
  | r :: rs' => Seq r (Seqs rs')
  end.

Definition ws_star : regex := Star (Cls CSpace).    (* \s* *)
Definition ws_plus : regex := Plus (Cls CSpace).    (* \s+ *)
Definition word_plus : regex := Plus (Cls CWord).   (* \w+ *)

Fixpoint ngroups (r : regex) : nat :=
  match r with
  | Seq a b | Alt a b => Nat.max (ngroups a) (ngroups b)
  | Star a | Lazy a => ngroups a
  | Grp n a => Nat.max n (ngroups a)
  | _ => 0
  end.

(** The matcher state: the text before the current position (reversed), the
    text from the current position on, the number of characters taken since
    the attempt started, and the captures made so far. *)
Record mstate : Type := MState {
  before : text;
  rest : text;
  taken : nat;
  caps : list (nat * text)
}.

Definition step_char (c : ascii) (cs : text) (st : mstate) : mstate :=
  MState (c :: before st) cs (S (taken st)) (caps st).

Definition consumed (st st' : mstate) : text :=
  firstn (taken st' - taken st) (rest st).

Definition record_group (n : nat) (st st' : mstate) : mstate :=
  MState (before st') (rest st') (taken st')
    ((n, consumed st st') :: caps st').

Definition progressed (st st' : mstate) : bool := taken st <? taken st'.

Definition word_before (st : mstate) : bool :=
  match before st with
  | [] => false
  | c :: _ => is_word c
  end.

Definition word_after (st : mstate) : bool :=
  match rest st with
  | [] => false
  | c :: _ => is_word c
  end.

(** Backtracking matcher in continuation-passing style.  A starred
    expression never iterates on an empty match, so the length of the
    remaining text bounds the number of iterations. *)
Fixpoint exec (r : regex) (st : mstate) (k : mstate -> option mstate)
  {struct r} : option mstate :=
  match r with
  | Eps => k st
  | Chr c =>
      match rest st with
      | x :: xs => if Ascii.eqb x c then k (step_char x xs st) else None
      | [] => None
      end
  | Cls cl =>
      match rest st with
      | x :: xs => if in_class cl x then k (step_char x xs st) else None
      | [] => None
      end
  | Seq a b => exec a st (fun st' => exec b st' k)
  | Alt a b =>
      match exec a st k with
      | Some res => Some res
      | None => exec b st k
      end
  | Star a =>
      (fix loop (n : nat) (st : mstate) : option mstate :=
         match n with
         | 0 => k st
         | S n' =>
             match exec a st (fun st' =>
                     if progressed st st' then loop n' st' else None) with
             | Some res => Some res
             | None => k st
             end
         end) (length (rest st)) st
  | Lazy a =>
      (fix loop (n : nat) (st : mstate) : option mstate :=
         match k st with
         | Some res => Some res
         | None =>
             match n with
             | 0 => None
             | S n' =>
                 exec a st (fun st' =>
                   if progressed st st' then loop n' st' else None)
             end
         end) (length (rest st)) st
  | Grp n a => exec a st (fun st' => k (record_group n st st'))
  | Bol => match before st with [] => k st | _ :: _ => None end
  | EolM =>
      match rest st with
      | [] => k st
      | x :: _ => if is_line_terminator x then k st else None
      end
  | WordB => if xorb (word_before st) (word_after st) then k st else None
  end.

(** One match attempt at the current position: the length of the match and
    its captures. *)
Record rmatch : Type := RMatch {
  mlen : nat;
  mcaps : list (nat * text)
}.

Definition match_here (r : regex) (bef s : text) : option rmatch :=
  match exec r (MState bef s 0 []) Some with
  | Some st' => Some (RMatch (taken st') (caps st'))
  | None => None
  end.

(** The first match at or after the current position, as [RegExp.exec]
    finds it from [lastIndex = 0]: the offset of the match and the match. *)
Fixpoint search (r : regex) (bef s : text) : option (nat * rmatch) :=
  match match_here r bef s with
  | Some m => Some (0, m)
  | None =>
      match s with
      | [] => None
      | c :: s' =>
          match search r (c :: bef) s' with
          | Some (i, m) => Some (S i, m)
          | None => None
          end
      end
  end.

(** [re.test(s)] on a regular expression whose [lastIndex] is 0. *)
Definition test (r : regex) (s : text) : bool :=
  match search r [] s with
  | Some _ => true
  | None => false
  end.

Fixpoint lookup_cap (n : nat) (cs : list (nat * text)) : option text :=
  match cs with
  | [] => None
  | (m, t) :: cs' => if n =? m then Some t else lookup_cap n cs'
  end.

(** The n-th capture; a group that did not take part is the empty text in a
    replacement. *)
Definition cap (n : nat) (cs : list (nat * text)) : text :=
  match lookup_cap n cs with
  | Some t => t
  | None => []
  end.

(** ** Replacement *)

Definition digit_val (c : ascii) : option nat :=
  if is_digit c then Some (code c - 48) else None.

Definition valid_index (i m : nat) : bool := (1 <=? i) && (i <=? m).

(** GetSubstitution: the expansion of a replacement template for one match.
    [m] is the number of capturing groups of the pattern; [pre] and [post]
    are the text before and after the match. *)
Fixpoint expand (m : nat) (matched pre post : text) (cs : list (nat * text))
  (tmpl : text) {struct tmpl} : text :=
  match tmpl with
  | [] => []
  | c :: t =>
      if negb (Ascii.eqb c "$") then c :: expand m matched pre post cs t
      else
        match t with
        | [] => [c]
        | d1 :: t1 =>
            if Ascii.eqb d1 "$" then "$"%char :: expand m matched pre post cs t1
            else if Ascii.eqb d1 "&" then matched ++ expand m matched pre post cs t1
            else if Ascii.eqb d1 "`" then pre ++ expand m matched pre post cs t1
            else if Ascii.eqb d1 "'" then post ++ expand m matched pre post cs t1
            else
              match digit_val d1 with
              | None => c :: expand m matched pre post cs t
              | Some n1 =>
                  let one_digit :=
                    if valid_index n1 m
                    then cap n1 cs ++ expand m matched pre post cs t1
                    else c :: d1 :: expand m matched pre post cs t1 in
                  match t1 with
                  | [] => one_digit
                  | d2 :: t2 =>
                      match digit_val d2 with
                      | None => one_digit
                      | Some n2 =>
                          let nn := 10 * n1 + n2 in
                          if m <? nn then one_digit
                          else if valid_index nn m
                               then cap nn cs ++ expand m matched pre post cs t2
                               else c :: d1 :: d2 :: expand m matched pre post cs t2
                      end
                  end
              end
        end
  end.

(** What a replacement is computed from: the matched text, the captures, the
    text before the match and the text after it. *)
Definition replacer : Type :=
  text -> list (nat * text) -> text -> text -> text.

Definition by_template (r : regex) (tmpl : text) : replacer :=
  fun matched cs pre post => expand (ngroups r) matched pre post cs tmpl.

(** [s.replace(re, f)] for a regular expression with the g flag.  [skip]
    counts the characters of the current match that are still to be passed;
    an empty match is followed by one copied character. *)
Fixpoint replace_scan (r : regex) (f : replacer) (skip : nat) (bef s : text)
  {struct s} : text :=
  match skip with
  | S k =>
      match s with
      | [] => []
      | c :: s' => replace_scan r f k (c :: bef) s'
      end
  | 0 =>
      match match_here r bef s with
      | Some m =>
          f (firstn (mlen m) s) (mcaps m) (rev bef) (skipn (mlen m) s) ++
          match s with
          | [] => []
          | c :: s' =>
              match mlen m with
              | 0 => c :: replace_scan r f 0 (c :: bef) s'
              | S k => replace_scan r f k (c :: bef) s'
              end
          end
      | None =>
          match s with
          | [] => []
          | c :: s' => c :: replace_scan r f 0 (c :: bef) s'
          end
      end
  end.

Definition replace_all (r : regex) (f : replacer) (s : text) : text :=
  replace_scan r f 0 [] s.

Definition replace_re (r : regex) (tmpl : string) (s : text) : text :=
  replace_all r (by_template r (lit tmpl)) s.

(** [s.replace(pat, tmpl)] for a string pattern: the first occurrence only,
    and the empty pattern occurs at the start. *)
Fixpoint replace_first_from (pat tmpl : text) (bef s : text) {struct s} : text :=
  if starts_with pat s
  then expand 0 pat (rev bef) (skipn (length pat) s) [] tmpl
         ++ skipn (length pat) s
  else match s with
       | [] => []
       | c :: s' => c :: replace_first_from pat tmpl (c :: bef) s'
       end.

Definition replace_first (pat tmpl : text) (s : text) : text :=
  replace_first_from pat tmpl [] s.

Arguments Chr c%_char.
Arguments Str s%_string.
Arguments lit s%_string.

(** ** fixLogicalErrors *)

(** A regular expression object with the g flag: the pattern and the
    [lastIndex] at which its next [test] starts. *)
Record regexp : Type := RegExp {
  source : regex;
  lastIndex : nat
}.

(** [re.test(s)] for such an object: the search starts at [lastIndex],
    which becomes the end of the match, or 0 when there is none. *)
Definition regexp_test (re : regexp) (s : text) : bool * regexp :=
  if length s <? lastIndex re then (false, RegExp (source re) 0)
  else
    match search (source re) (rev (firstn (lastIndex re) s))
            (skipn (lastIndex re) s) with
    | Some (i, m) =>
        (true, RegExp (source re) (lastIndex re + i + mlen m))
    | None => (false, RegExp (source re) 0)
    end.

(** [s.replace(re, f)] for such an object: [lastIndex] is set to 0 before
    the scan, and is 0 again when the scan is over. *)
Definition regexp_replace (re : regexp) (f : replacer) (s : text)
  : text * regexp :=
  (replace_all (source re) f s, RegExp (source re) 0).

Record fix_rule : Type := FixRule {
  pattern : regexp;
  replacement : text;
  comment : text
}.

(** /n\s*%\s*2\s*!=\s*0/g *)
Definition re_parity : regex :=
  Seqs [Chr "n"; ws_star; Chr "%"; ws_star; Chr "2"; ws_star; Str "!=";
        ws_star; Chr "0"].

(** /n\s*%\s*2\s*!==\s*0/g *)
Definition re_parity_strict : regex :=
  Seqs [Chr "n"; ws_star; Chr "%"; ws_star; Chr "2"; ws_star; Str "!==";
        ws_star; Chr "0"].

(** /for\s*\(\s*\w+\s*=\s*0;\s*\w+\s*<\s*(\w+)\.length\s*-\s*1/g *)
Definition re_off_by_one : regex :=
  Seqs [Str "for"; ws_star; Chr "("; ws_star; word_plus; ws_star; Chr "=";
        ws_star; Str "0;"; ws_star; word_plus; ws_star; Chr "<"; ws_star;
        Grp 1 word_plus; Str ".length"; ws_star; Chr "-"; ws_star; Chr "1"].

(** /\[\s*(\w+)\.length\s*\]/g *)
Definition re_bounds : regex :=
  Seqs [Chr "["; ws_star; Grp 1 word_plus; Str ".length"; ws_star; Chr "]"].

(** /&&\s*true/g *)
Definition re_and_true : regex := Seqs [Str "&&"; ws_star; Str "true"].

(** /\|\|\s*false/g *)
Definition re_or_false : regex := Seqs [Str "||"; ws_star; Str "false"].

Definition rule_parity : fix_rule :=
  FixRule (RegExp re_parity 0) (lit "n % 2 == 0")
    (lit "Fixed: even numbers have remainder 0").

Definition rule_parity_strict : fix_rule :=
  FixRule (RegExp re_parity_strict 0) (lit "n % 2 === 0")
    (lit "Fixed: even numbers have remainder 0").

Definition rule_off_by_one : fix_rule :=
  FixRule (RegExp re_off_by_one 0) (lit "for (let i = 0; i < $1.length")
    (lit "Fixed: off-by-one error").

Definition rule_bounds : fix_rule :=
  FixRule (RegExp re_bounds 0) (lit "[$1.length - 1]")
    (lit "Fixed: array index out of bounds").

Definition rule_and_true : fix_rule :=
  FixRule (RegExp re_and_true 0) [] (lit "Simplified: && true is redundant").

Definition rule_or_false : fix_rule :=
  FixRule (RegExp re_or_false 0) [] (lit "Simplified: || false is redundant").

(** The array literal: every call of [fixLogicalErrors] evaluates it anew,
    so every pattern object starts with [lastIndex = 0]. *)
Definition errorPatterns : list fix_rule :=
  [ rule_parity; rule_parity_strict; rule_off_by_one; rule_bounds;
    rule_and_true; rule_or_false ].

(** The body of the [forEach] callback.  The pattern object of the rule is
    tested, which moves its [lastIndex], and then used for the replacement;
    the callback drops it afterwards. *)
Definition apply_rule (fixedCode : text) (rule : fix_rule) : text :=
  let (found, pattern1) := regexp_test (pattern rule) fixedCode in
  if found then
    let (fixedCode1, _) :=
      regexp_replace pattern1
        (by_template (source pattern1) (replacement rule)) fixedCode in
    if negb (includes (comment rule) fixedCode1)
    then replace_first (replacement rule)
           (replacement rule ++ lit "  // " ++ comment rule) fixedCode1
    else fixedCode1
  else fixedCode.

Definition fixLogicalErrors (code language : text) : text :=
  fold_left apply_rule errorPatterns code.

(** ** Patterns shared by the converters *)

Definition dot_lazy : regex := Lazy (Cls CDot).     (* .*? *)
Definition dot_plus : regex := Plus (Cls CDot).     (* .+  *)

(** /def\s+(\w+)\s*\((.*?)\):/g *)
Definition re_def : regex :=
  Seqs [Str "def"; ws_plus; Grp 1 word_plus; ws_star; Chr "(";
        Grp 2 dot_lazy; Str "):"].

(** /return\s+(.+)/g *)
Definition re_return : regex := Seqs [Str "return"; ws_plus; Grp 1 dot_plus].

(** /return\s+(.+);/g *)
Definition re_return_semi : regex :=
  Seqs [Str "return"; ws_plus; Grp 1 dot_plus; Chr ";"].

(** /\bword\b/g *)
Definition re_word (w : string) : regex := Seqs [WordB; Str w; WordB].

(** /:\s*$/gm *)
Definition re_colon_eol : regex := Seqs [Chr ":"; ws_star; EolM].

(** /;$/gm *)
Definition re_semi_eol : regex := Seqs [Chr ";"; EolM].

(** /print\s*\((.*?)\)/g *)
Definition re_print : regex :=
  Seqs [Str "print"; ws_star; Chr "("; Grp 1 dot_lazy; Chr ")"].

(** /fQ([^Q]*\{[^}]*\}[^Q]* )Q/g, where Q is the double quote *)
Definition re_fstring : regex :=
  Seqs [Chr "f"; Chr dquote;
        Grp 1 (Seqs [Star (Cls (CNot [dquote])); Chr "{";
                     Star (Cls (CNot ["}"%char])); Chr "}";
                     Star (Cls (CNot [dquote]))]);
        Chr dquote].

(** /\{(\w+)\}/g *)
Definition re_brace_var : regex := Seqs [Chr "{"; Grp 1 word_plus; Chr "}"].

(** /function\s+(\w+)\s*\(([^)]* )\)/g *)
Definition re_function : regex :=
  Seqs [Str "function"; ws_plus; Grp 1 word_plus; ws_star; Chr "(";
        Grp 2 (Star (Cls (CNot [")"%char]))); Chr ")"].

(** /(\w+)/g *)
Definition re_ident : regex := Grp 1 word_plus.

(** /}/g *)
Definition re_close_brace : regex := Chr "}".

(** ** convertPythonToJavaScript *)

(** The state of the line loop: the lines pushed so far and the two
    counters.  Both counters are raised together, so [indentLevel] equals
    [braceCount] when the closing loop starts and never drops below 0. *)
Record brace_state : Type := BraceState {
  result : list text;
  braceCount : nat;
  indentLevel : nat
}.

Definition indent (n : nat) : text := repeat_text (lit "  ") n.

Definition is_empty (t : text) : bool :=
  match t with
  | [] => true
  | _ :: _ => false
  end.

Definition scan_line (acc : brace_state) (line : text) : brace_state :=
  let trimmed := trim line in
  if negb (is_empty trimmed) then
    if includes (lit "{") line then
      BraceState (result acc ++ [indent (indentLevel acc) ++ trimmed])
                 (S (braceCount acc)) (S (indentLevel acc))
    else if starts_with (lit "return") trimmed
            || starts_with (lit "console.log") trimmed then
      BraceState (result acc ++ [indent (indentLevel acc) ++ trimmed])
                 (braceCount acc) (indentLevel acc)
    else
      BraceState (result acc ++ [indent (indentLevel acc) ++ trimmed])
                 (braceCount acc) (indentLevel acc)
  else acc.

(** for (let i = 0; i < braceCount; i++) { indentLevel--; result.push(...) } *)
Fixpoint close_braces (n : nat) (res : list text) (lvl : nat) : list text :=
  match n with
  | 0 => res
  | S n' =>
      let lvl' := pred lvl in
      close_braces n' (res ++ [indent lvl' ++ lit "}"]) lvl'
  end.

(** The chain of rewrites that produces [converted]. *)
Definition py_to_js_rewrite (code : text) : text :=
  let c := replace_re re_parity "n % 2 === 0" code in
  let c := replace_re re_def "function $1($2) {" c in
  let c := replace_re re_return "  return $1;" c in
  let c := replace_re (re_word "True") "true" c in
  let c := replace_re (re_word "False") "false" c in
  let c := replace_re (re_word "None") "null" c in
  let c := replace_re (Str "elif") "else if" c in
  let c := replace_re re_colon_eol " {" c in
  let c := replace_re re_print "console.log($1)" c in
  let c := replace_re re_fstring "`$1`" c in
  replace_re re_brace_var "${$1}" c.

(** The block-structure pass over the rewritten text. *)
Definition rebuild_blocks (converted : text) : text :=
  let lines := split_on nl converted in
  let st := fold_left scan_line lines (BraceState [] 0 0) in
  join [nl] (close_braces (braceCount st) (result st) (indentLevel st)).

Definition convertPythonToJavaScript (code : text) : text :=
  rebuild_blocks (py_to_js_rewrite code).

(** ** convertPythonToTypeScript *)

Definition typed_params (ty : string) (params : text) : text :=
  replace_all re_ident
    (by_template re_ident (lit "$1: " ++ lit ty)) params.

Definition annotate_function (with_multiply : bool) : replacer :=
  fun _ cs _ _ =>
    let funcName := cap 1 cs in
    let params := cap 2 cs in
    if includes (lit "even") funcName || includes (lit "odd") funcName then
      lit "function " ++ funcName ++ lit "(" ++ typed_params "number" params
        ++ lit "): boolean"
    else if includes (lit "add") funcName || includes (lit "sum") funcName
            || (with_multiply && includes (lit "multiply") funcName) then
      lit "function " ++ funcName ++ lit "(" ++ typed_params "number" params
        ++ lit "): number"
    else
      lit "function " ++ funcName ++ lit "(" ++ typed_params "any" params
        ++ lit "): any".

Definition convertPythonToTypeScript (code : text) : text :=
  let jsCode := convertPythonToJavaScript code in
  replace_all re_function (annotate_function true) jsCode.

(** ** convertPythonToJava and convertPythonToCpp *)

Definition unlines (ls : list text) : text := join [nl] ls.

Definition prefixed_params (ty : string) (params : text) : text :=
  replace_all re_ident
    (by_template re_ident (lit ty ++ lit " $1")) params.

Definition java_method : replacer :=
  fun _ cs _ _ =>
    let funcName := cap 1 cs in
    let params := cap 2 cs in
    if includes (lit "even") funcName || includes (lit "odd") funcName then
      lit "    public static boolean " ++ funcName ++ lit "("
        ++ prefixed_params "int" params ++ lit ") {"
    else if includes (lit "add") funcName || includes (lit "sum") funcName then
      lit "    public static int " ++ funcName ++ lit "("
        ++ prefixed_params "int" params ++ lit ") {"
    else
      lit "    public static Object " ++ funcName ++ lit "("
        ++ prefixed_params "Object" params ++ lit ") {".

Definition convertPythonToJava (code : text) : text :=
  let c := replace_re re_parity "n % 2 == 0" code in
  let c := replace_all re_def java_method c in
  let c := replace_re re_return "        return $1;" c in
  let c := replace_re (re_word "True") "true" c in
  let c := replace_re (re_word "False") "false" c in
  let c := replace_re (re_word "None") "null" c in
  let converted := replace_re re_print "System.out.println($1)" c in
  let className := lit "CodeConverter" in
  unlines
    [ lit "public class " ++ className ++ lit " {";
      converted;
      lit "    }";
      [];
      lit "    public static void main(String[] args) {";
      lit "        // Test the converted function";
      lit "        System.out.println(" ++ [dquote]
        ++ lit "Testing converted function:" ++ [dquote] ++ lit ");";
      lit "        // Add test calls here";
      lit "    }";
      lit "}" ].

Definition cpp_function : replacer :=
  fun _ cs _ _ =>
    let funcName := cap 1 cs in
    let params := cap 2 cs in
    if includes (lit "even") funcName || includes (lit "odd") funcName then
      lit "bool " ++ funcName ++ lit "(" ++ prefixed_params "int" params
        ++ lit ") {"
    else if includes (lit "add") funcName || includes (lit "sum") funcName then
      lit "int " ++ funcName ++ lit "(" ++ prefixed_params "int" params
        ++ lit ") {"
    else
      lit "auto " ++ funcName ++ lit "(" ++ prefixed_params "auto" params
        ++ lit ") {".

Definition convertPythonToCpp (code : text) : text :=
  let c := replace_re re_parity "n % 2 == 0" code in
  let c := replace_all re_def cpp_function c in
  let c := replace_re re_return "    return $1;" c in
  let c := replace_re (re_word "True") "true" c in
  let c := replace_re (re_word "False") "false" c in
  let converted := replace_re re_print "cout << $1 << endl" c in
  unlines
    [ lit "#include <iostream>";
      lit "using namespace std;";
      [];
      converted;
      lit "}";
      [];
      lit "int main() {";
      lit "    cout << boolalpha;";
      lit "    // Test the converted function";
      lit "    cout << " ++ [dquote] ++ lit "Testing converted function:"
        ++ [dquote] ++ lit " << endl;";
      lit "    // Add test calls here";
      lit "    return 0;";
      lit "}" ].

(** ** convertJavaScriptToPython *)

(** /function\s+(\w+)\s*\((.*?)\)\s*{/g *)
Definition re_js_function : regex :=
  Seqs [Str "function"; ws_plus; Grp 1 word_plus; ws_star; Chr "(";
        Grp 2 dot_lazy; Chr ")"; ws_star; Chr "{"].

(** /(?:const|let|var)\s+(\w+)\s*=\s*(.+);/g *)
Definition re_js_var : regex :=
  Seqs [Alt (Str "const") (Alt (Str "let") (Str "var")); ws_plus;
        Grp 1 word_plus; ws_star; Chr "="; ws_star; Grp 2 dot_plus; Chr ";"].

(** /console\.log\s*\((.*?)\)/g *)
Definition re_console_log : regex :=
  Seqs [Str "console.log"; ws_star; Chr "("; Grp 1 dot_lazy; Chr ")"].

(** /`([^`]*\$\{[^}]*\}[^`]* )`/g *)
Definition re_template_literal : regex :=
  Seqs [Chr "`";
        Grp 1 (Seqs [Star (Cls (CNot ["`"%char])); Str "${";
                     Star (Cls (CNot ["}"%char])); Chr "}";
                     Star (Cls (CNot ["`"%char]))]);
        Chr "`"].

(** /\$\{(\w+)\}/g *)
Definition re_dollar_var : regex := Seqs [Str "${"; Grp 1 word_plus; Chr "}"].

Definition replace_tmpl (r : regex) (tmpl : text) (s : text) : text :=
  replace_all r (by_template r tmpl) s.

Definition convertJavaScriptToPython (code : text) : text :=
  let c := replace_re re_parity_strict "n % 2 == 0" code in
  let c := replace_re re_js_function "def $1($2):" c in
  let c := replace_re re_js_var "$1 = $2" c in
  let c := replace_re re_return_semi "return $1" c in
  let c := replace_re (re_word "true") "True" c in
  let c := replace_re (re_word "false") "False" c in
  let c := replace_re (re_word "null") "None" c in
  let c := replace_re re_console_log "print($1)" c in
  let c := replace_tmpl re_close_brace [] c in
  let c := replace_tmpl re_semi_eol [] c in
  let c := replace_tmpl re_template_literal
             (lit "f" ++ [dquote] ++ lit "$1" ++ [dquote]) c in
  replace_re re_dollar_var "{$1}" c.

(** ** convertJavaScriptToTypeScript *)

(** /(?:const|let)\s+(\w+)\s*=\s*(\d+)/g *)
Definition re_ts_number : regex :=
  Seqs [Alt (Str "const") (Str "let"); ws_plus; Grp 1 word_plus; ws_star;
        Chr "="; ws_star; Grp 2 (Plus (Cls CDigit))].

(** /(?:const|let)\s+(\w+)\s*=\s*(true|false)/g *)
Definition re_ts_boolean : regex :=
  Seqs [Alt (Str "const") (Str "let"); ws_plus; Grp 1 word_plus; ws_star;
        Chr "="; ws_star; Grp 2 (Alt (Str "true") (Str "false"))].

(** /(?:const|let)\s+(\w+)\s*=\s*Q([^Q]* )Q/g, where Q is the double quote *)
Definition re_ts_string : regex :=
  Seqs [Alt (Str "const") (Str "let"); ws_plus; Grp 1 word_plus; ws_star;
        Chr "="; ws_star; Chr dquote; Grp 2 (Star (Cls (CNot [dquote])));
        Chr dquote].

Definition convertJavaScriptToTypeScript (code : text) : text :=
  let c := replace_all re_function (annotate_function false) code in
  let c := replace_re re_ts_number "const $1: number = $2" c in
  let c := replace_re re_ts_boolean "const $1: boolean = $2" c in
  replace_tmpl re_ts_string
    (lit "const $1: string = " ++ [dquote] ++ lit "$2" ++ [dquote]) c.

(** ** convertJavaToPython and convertCppToPython *)

(** /public\s+class\s+\w+\s*{[\s\S]*?public\s+static\s+/g *)
Definition re_java_class : regex :=
  Seqs [Str "public"; ws_plus; Str "class"; ws_plus; word_plus; ws_star;
        Chr "{"; Lazy (Cls CAny); Str "public"; ws_plus; Str "static";
        ws_plus].

(** /public\s+static\s+(boolean|int|void|String)\s+(\w+)\s*\((.*?)\)\s*{/g *)
Definition re_java_method : regex :=
  Seqs [Str "public"; ws_plus; Str "static"; ws_plus;
        Grp 1 (Alt (Str "boolean")
                 (Alt (Str "int") (Alt (Str "void") (Str "String"))));
        ws_plus; Grp 2 word_plus; ws_star; Chr "("; Grp 3 dot_lazy; Chr ")";
        ws_star; Chr "{"].

(** /type\s+(\w+)/g *)
Definition re_typed (ty : string) : regex :=
  Seqs [Str ty; ws_plus; Grp 1 word_plus].

(** /System\.out\.println\s*\((.*?)\)/g *)
Definition re_println : regex :=
  Seqs [Str "System.out.println"; ws_star; Chr "("; Grp 1 dot_lazy; Chr ")"].

Definition convertJavaToPython (code : text) : text :=
  let c := replace_tmpl re_java_class [] code in
  let c := replace_re re_java_method "def $2($3):" c in
  let c := replace_re (re_typed "int") "$1" c in
  let c := replace_re (re_typed "boolean") "$1" c in
  let c := replace_re (re_typed "String") "$1" c in
  let c := replace_re re_return_semi "return $1" c in
  let c := replace_re (re_word "true") "True" c in
  let c := replace_re (re_word "false") "False" c in
  let c := replace_re (re_word "null") "None" c in
  let c := replace_re re_println "print($1)" c in
  let c := replace_tmpl re_close_brace [] c in
  replace_tmpl re_semi_eol [] c.

(** /#include\s*<.*?>/g *)
Definition re_include : regex :=
  Seqs [Str "#include"; ws_star; Chr "<"; dot_lazy; Chr ">"].

(** /using\s+namespace\s+std;/g *)
Definition re_using_std : regex :=
  Seqs [Str "using"; ws_plus; Str "namespace"; ws_plus; Str "std;"].

(** /(bool|int|void|auto)\s+(\w+)\s*\((.*?)\)\s*{/g *)
Definition re_cpp_function : regex :=
  Seqs [Grp 1 (Alt (Str "bool")
                 (Alt (Str "int") (Alt (Str "void") (Str "auto"))));
        ws_plus; Grp 2 word_plus; ws_star; Chr "("; Grp 3 dot_lazy; Chr ")";
        ws_star; Chr "{"].

(** /cout\s*<<\s*(.*?)\s*<<\s*endl/g *)
Definition re_cout : regex :=
  Seqs [Str "cout"; ws_star; Str "<<"; ws_star; Grp 1 dot_lazy; ws_star;
        Str "<<"; ws_star; Str "endl"].

Definition convertCppToPython (code : text) : text :=
  let c := replace_tmpl re_include [] code in
  let c := replace_tmpl re_using_std [] c in
  let c := replace_re re_cpp_function "def $2($3):" c in
  let c := replace_re (re_typed "int") "$1" c in
  let c := replace_re (re_typed "bool") "$1" c in
  let c := replace_re (re_typed "auto") "$1" c in
  let c := replace_re re_return_semi "return $1" c in
  let c := replace_re (re_word "true") "True" c in
  let c := replace_re (re_word "false") "False" c in
  let c := replace_re re_cout "print($1)" c in
  let c := replace_tmpl re_close_brace [] c in
  replace_tmpl re_semi_eol [] c.

(** ** The template fallback *)

Definition getLanguageTemplate (language : text) : text :=
  if text_eqb language (lit "javascript") then
    unlines [ lit "function convertedFunction() {";
              lit "    // Implement your logic here";
              lit "    return null;";
              lit "}" ]
  else if text_eqb language (lit "python") then
    unlines [ lit "def converted_function():";
              lit "    # Implement your logic here";
              lit "    return None" ]
  else if text_eqb language (lit "java") then
    unlines [ lit "public class ConvertedCode {";
              lit "    public static Object convertedFunction() {";
              lit "        // Implement your logic here";
              lit "        return null;";
              lit "    }";
              lit "}" ]
  else if text_eqb language (lit "cpp") then
    unlines [ lit "#include <iostream>";
              lit "using namespace std;";
              [];
              lit "auto convertedFunction() {";
              lit "    // Implement your logic here";
              lit "    return nullptr;";
              lit "}" ]
  else lit "// Implement your converted logic here".

(** code.split('\n').map(line => ` * ${line}`).join('\n') *)
Definition comment_body (code : text) : text :=
  join [nl] (map (fun line => lit " * " ++ line) (split_on nl code)).

Definition template_head (sourceLanguage targetLanguage : text) : text :=
  lit "// Converted from " ++ sourceLanguage ++ lit " to " ++ targetLanguage
    ++ [nl] ++ lit "// Note: This conversion may require manual adjustment"
    ++ [nl] ++ [nl]
    ++ lit "/* Original " ++ sourceLanguage ++ lit " code:" ++ [nl].

Definition template_tail (sourceLanguage targetLanguage : text) : text :=
  [nl] ++ lit " */" ++ [nl] ++ [nl]
    ++ lit "// TODO: Implement " ++ targetLanguage ++ lit " equivalent" ++ [nl]
    ++ lit "// The conversion for " ++ sourceLanguage ++ lit " -> "
    ++ targetLanguage ++ lit " requires manual implementation" ++ [nl]
    ++ lit "// Please review the original code above and implement the equivalent logic in "
    ++ targetLanguage ++ [nl] ++ [nl]
    ++ getLanguageTemplate targetLanguage.

Definition generateConversionTemplate
  (code sourceLanguage targetLanguage : text) : text :=
  template_head sourceLanguage targetLanguage
    ++ comment_body code
    ++ template_tail sourceLanguage targetLanguage.

(** ** performLanguageConversion and convertCode *)

Definition supported_pairs : list (text * (text -> text)) :=
  [ (lit "python-javascript", convertPythonToJavaScript);
    (lit "python-typescript", convertPythonToTypeScript);
    (lit "python-java", convertPythonToJava);
    (lit "python-cpp", convertPythonToCpp);
    (lit "javascript-python", convertJavaScriptToPython);
    (lit "javascript-typescript", convertJavaScriptToTypeScript);
    (lit "java-python", convertJavaToPython);
    (lit "cpp-python", convertCppToPython) ].

Fixpoint switch_on (key : text) (cases : list (text * (text -> text)))
  : option (text -> text) :=
  match cases with
  | [] => None
  | (label, handler) :: cases' =>
      if text_eqb key label then Some handler else switch_on key cases'
  end.

Definition performLanguageConversion
  (code sourceLanguage targetLanguage : text) : text :=
  let conversionKey := sourceLanguage ++ lit "-" ++ targetLanguage in
  match switch_on conversionKey supported_pairs with
  | Some handler => handler code
  | None => generateConversionTemplate code sourceLanguage targetLanguage
  end.

Inductive Mode : Type := ModeConvert | ModeFix.

(** ** Settled promises

    Both entry points first await a timer and then compute synchronously.  A
    call issued at time [now] settles at [now + delay] with a value or with
    the exception that escaped. *)

(** The only exceptions the simulator can meet are type errors.  The
    wording of their messages is the engine's; V8's is used as a guide. *)
Inductive exn : Type :=
| TypeError (message : text).

Inductive completion (A : Type) : Type :=
| Ok (a : A)
| Throw (e : exn).

Arguments Ok {A} a.
Arguments Throw {A} e.

Definition bind {A B : Type} (c : completion A) (f : A -> completion B) : completion B :=
  match c with
  | Ok a => f a
  | Throw e => Throw e
  end.

Notation "x <- c ;; k" := (bind c (fun x => k))
  (at level 61, c at next level, right associativity).

(** try { body } catch (error) { handler(error) } *)
Definition try_catch {A : Type} (body : completion A) (handler : exn -> completion A)
  : completion A :=
  match body with
  | Ok a => Ok a
  | Throw e => handler e
  end.

(** [xs.map(f)] for a callback that may throw: the first exception escapes. *)
Fixpoint map_result {A B : Type} (f : A -> completion B) (xs : list A)
  : completion (list B) :=
  match xs with
  | [] => Ok []
  | x :: xs' =>
      y <- f x ;;
      ys <- map_result f xs' ;;
      Ok (y :: ys)
  end.

Record settled (A : Type) : Type := Settled {
  settled_at : nat;
  outcome : completion A
}.

Arguments Settled {A} settled_at outcome.
Arguments settled_at {A} s.
Arguments outcome {A} s.

Definition convertCode (now : nat)
  (code sourceLanguage targetLanguage : text) (mode : Mode) : settled text :=
  Settled (now + 1500)
    (match mode with
     | ModeFix => Ok (fixLogicalErrors code sourceLanguage)
     | ModeConvert =>
         Ok (performLanguageConversion code sourceLanguage targetLanguage)
     end).

(** ** extractFunctionName *)

(** /def\s+(\w+)/ *)
Definition re_name_python : regex := Seqs [Str "def"; ws_plus; Grp 1 word_plus].

(** /function\s+(\w+)/ *)
Definition re_name_js : regex :=
  Seqs [Str "function"; ws_plus; Grp 1 word_plus].

(** /public\s+static\s+\w+\s+(\w+)/ *)
Definition re_name_java : regex :=
  Seqs [Str "public"; ws_plus; Str "static"; ws_plus; word_plus; ws_plus;
        Grp 1 word_plus].

(** /\w+\s+(\w+)\s*\(/ *)
Definition re_name_cpp : regex :=
  Seqs [word_plus; ws_plus; Grp 1 word_plus; ws_star; Chr "("].

(** The own keys of the [patterns] object.  A language tag is one of the
    catalogue's values, so no inherited property name is looked up; for a
    name that [Object.prototype] defines, [__proto__] for one, the code
    reads the inherited property, which this table does not hold. *)
Definition name_patterns : list (text * regex) :=
  [ (lit "python", re_name_python);
    (lit "javascript", re_name_js);
    (lit "typescript", re_name_js);
    (lit "java", re_name_java);
    (lit "cpp", re_name_cpp) ].

Fixpoint lookup_pattern (language : text) (table : list (text * regex))
  : option regex :=
  match table with
  | [] => None
  | (key, r) :: table' =>
      if text_eqb language key then Some r else lookup_pattern language table'
  end.

Definition extractFunctionName (code language : text) : text :=
  match lookup_pattern language name_patterns with
  | Some pattern =>
      match search pattern [] code with
      | Some (_, m) => cap 1 (mcaps m)
      | None => lit "unknown"
      end
  | None => lit "unknown"
  end.

(** ** runTestCases *)

Section TestSimulator.

(** Numbers are IEEE doubles; the simulator only adds, multiplies, takes a
    remainder and compares them, so they are kept abstract. *)
Variable number : Type.

(** The values [JSON.parse] produces, and [undefined] for a missing
    property. *)
#[local] Unset Elimination Schemes.
Inductive value : Type :=
| VUndefined
| VNull
| VBool (b : bool)
| VNum (x : number)
| VStr (s : text)
| VArr (elems : list value)
| VObj (fields : list (text * value)).
#[local] Set Elimination Schemes.

(** The operators [+], [*] and [%] with their coercions.  On the values
    above they always produce a primitive and never throw. *)
Variable js_add : value -> value -> value.
Variable js_mul : value -> value -> value.
Variable js_rem : value -> value -> value.

(** [===] on numbers, and the constants 0 and 2. *)
Variable num_eqb : number -> number -> bool.
Variable num_zero : number.
Variable num_two : number.

(** [a === b] where [a] is the primitive just computed: values of
    different types differ, and a primitive never equals an array or an
    object. *)
Definition strict_equal (a b : value) : bool :=
  match a, b with
  | VUndefined, VUndefined => true
  | VNull, VNull => true
  | VBool x, VBool y => Bool.eqb x y
  | VNum x, VNum y => num_eqb x y
  | VStr x, VStr y => text_eqb x y
  | _, _ => false
  end.

Fixpoint lookup_field (name : text) (fields : list (text * value)) : value :=
  match fields with
  | [] => VUndefined
  | (key, v) :: fields' =>
      if text_eqb name key then v else lookup_field name fields'
  end.

Definition type_name (v : value) : text :=
  match v with
  | VUndefined => lit "undefined"
  | VNull => lit "null"
  | VBool _ => lit "boolean"
  | VNum _ => lit "number"
  | VStr _ => lit "string"
  | VArr _ | VObj _ => lit "object"
  end.

(** [v.name] for the two names the simulator reads, [input] and
    [expected]: reading a property of [null] or [undefined] throws, and
    only an object can own such a property. *)
Definition get_field (v : value) (name : text) : completion value :=
  match v with
  | VUndefined | VNull =>
      Throw (TypeError (lit "Cannot read properties of " ++ type_name v
                          ++ lit " (reading '" ++ name ++ lit "')"))
  | VObj fields => Ok (lookup_field name fields)
  | _ => Ok VUndefined
  end.

(** [v[0]] *)
Definition get_first (v : value) : completion value :=
  match v with
  | VUndefined | VNull =>
      Throw (TypeError (lit "Cannot read properties of " ++ type_name v
                          ++ lit " (reading '0')"))
  | VArr elems => Ok (nth 0 elems VUndefined)
  | VStr s =>
      Ok (match s with
          | [] => VUndefined
          | c :: _ => VStr [c]
          end)
  | VObj fields => Ok (lookup_field (lit "0") fields)
  | _ => Ok VUndefined
  end.

(** const [a, b] = v: arrays and strings are iterable, nothing else is. *)
Definition destructure_pair (v : value) : completion (value * value) :=
  match v with
  | VArr elems => Ok (nth 0 elems VUndefined, nth 1 elems VUndefined)
  | VStr s =>
      Ok (match s with
          | [] => (VUndefined, VUndefined)
          | [c] => (VStr [c], VUndefined)
          | c :: d :: _ => (VStr [c], VStr [d])
          end)
  | _ => Throw (TypeError (type_name v ++ lit " is not iterable"))
  end.

Record TestResult : Type := MkTestResult {
  passed : bool;
  actual : value;
  expected : value;
  input : value;
  error : option text
}.

(** error instanceof Error ? error.message : 'Unknown error' *)
Definition error_message (e : exn) : text :=
  match e with
  | TypeError message => message
  end.

(** The body of the [try] block. *)
Definition evaluate_case (functionName : text) (testCase : value)
  : completion TestResult :=
  if includes (lit "even") functionName
     || includes (lit "Even") functionName then
    tc_input <- get_field testCase (lit "input") ;;
    input0 <- get_first tc_input ;;
    let actual0 :=
      VBool (strict_equal (js_rem input0 (VNum num_two)) (VNum num_zero)) in
    tc_expected <- get_field testCase (lit "expected") ;;
    Ok (MkTestResult (strict_equal actual0 tc_expected) actual0
          tc_expected tc_input None)
  else if includes (lit "add") functionName
          || includes (lit "sum") functionName then
    tc_input <- get_field testCase (lit "input") ;;
    ab <- destructure_pair tc_input ;;
    let actual0 := js_add (fst ab) (snd ab) in
    tc_expected <- get_field testCase (lit "expected") ;;
    Ok (MkTestResult (strict_equal actual0 tc_expected) actual0
          tc_expected tc_input None)
  else if includes (lit "multiply") functionName then
    tc_input <- get_field testCase (lit "input") ;;
    ab <- destructure_pair tc_input ;;
    let actual0 := js_mul (fst ab) (snd ab) in
    tc_expected <- get_field testCase (lit "expected") ;;
    Ok (MkTestResult (strict_equal actual0 tc_expected) actual0
          tc_expected tc_input None)
  else
    tc_expected <- get_field testCase (lit "expected") ;;
    tc_input <- get_field testCase (lit "input") ;;
    Ok (MkTestResult true tc_expected tc_expected tc_input None).

(** The [catch] block: it reads the test case again. *)
Definition report_error (testCase : value) (e : exn) : completion TestResult :=
  tc_expected <- get_field testCase (lit "expected") ;;
  tc_input <- get_field testCase (lit "input") ;;
  Ok (MkTestResult false VNull tc_expected tc_input
        (Some (error_message e))).

(** The callback of [testCases.map]. *)
Definition run_case (code language : text) (testCase : value)
  : completion TestResult :=
  try_catch
    (evaluate_case (extractFunctionName code language) testCase)
    (report_error testCase).

Definition runTestCases (now : nat) (code language : text)
  (testCases : list value) : settled (list TestResult) :=
  Settled (now + 1000) (map_result (run_case code language) testCases).

End TestSimulator.

Arguments VUndefined {number}.
Arguments VNull {number}.
Arguments VBool {number} b.
Arguments VStr {number} s.
Arguments VArr {number} elems.
Arguments VObj {number} fields.
Arguments strict_equal {number} num_eqb a b.
Arguments lookup_field {number} name fields.
Arguments type_name {number} v.
Arguments get_field {number} v name.
Arguments get_first {number} v.
Arguments destructure_pair {number} v.
Arguments MkTestResult {number} passed actual expected input error.
Arguments passed {number} t.
Arguments actual {number} t.
Arguments expected {number} t.
Arguments input {number} t.
Arguments error {number} t.
Arguments evaluate_case {number} js_add js_mul js_rem num_eqb num_zero num_two
  functionName testCase.
Arguments report_error {number} testCase e.
Arguments run_case {number} js_add js_mul js_rem num_eqb num_zero num_two
  code language testCase.
Arguments runTestCases {number} js_add js_mul js_rem num_eqb num_zero num_two
  now code language testCases.

(** ** detectLanguage *)

Definition star_dot : regex := Star (Cls CDot).      (* .* *)

Definition cpp_signatures : list regex :=
  [ Seqs [Str "#include"; ws_star; Chr "<"];                     (* /#include\s*</ *)
    Seqs [Bol; Str "int"; ws_plus; Str "main"; ws_star; Chr "("]; (* /^int\s+main\s*\(/ *)
    Seqs [Str "std::"; word_plus];                                 (* /std::\w+/ *)
    Seqs [Str "cout"; ws_star; Str "<<"];                          (* /cout\s*<</ *)
    Seqs [Str "using"; ws_plus; Str "namespace"; ws_plus; Str "std"] ].

Definition python_signatures : list regex :=
  [ Seqs [Bol; Str "def"; ws_plus; word_plus; ws_star; Chr "("];  (* /^def\s+\w+\s*\(/ *)
    Seqs [Bol; Str "class"; ws_plus; word_plus];                   (* /^class\s+\w+/ *)
    Seqs [Str "import"; ws_plus; word_plus];                       (* /import\s+\w+/ *)
    Seqs [Str "from"; ws_plus; word_plus; ws_plus; Str "import"];  (* /from\s+\w+\s+import/ *)
    Seqs [Str "print"; ws_star; Chr "("] ].                        (* /print\s*\(/ *)

Definition javascript_signatures : list regex :=
  [ Seqs [Bol; Str "function"; ws_plus; word_plus; ws_star; Chr "("];
    Seqs [Bol; Str "const"; ws_plus; word_plus; ws_star; Chr "="];
    Seqs [Bol; Str "let"; ws_plus; word_plus; ws_star; Chr "="];
    Seqs [Bol; Str "var"; ws_plus; word_plus; ws_star; Chr "="];
    (* /^export\s+(default\s+)?/ *)
    Seqs [Bol; Str "export"; ws_plus; Opt (Grp 1 (Seq (Str "default") ws_plus))];
    Seqs [Bol; Str "import"; ws_plus; star_dot; Str "from"];      (* /^import\s+.*from/ *)
    Str "console.log" ].

Definition java_signatures : list regex :=
  [ Seqs [Bol; Str "public"; ws_plus; Str "class"; ws_plus; word_plus];
    Seqs [Bol; Str "public"; ws_plus; Str "static"; ws_plus; Str "void";
          ws_plus; Str "main"];
    Seqs [Bol; Str "package"; ws_plus; word_plus];
    Str "System.out.println" ].

Definition csharp_signatures : list regex :=
  [ Seqs [Bol; Str "using"; ws_plus; Str "System"];
    Seqs [Bol; Str "namespace"; ws_plus; word_plus];
    Str "Console.WriteLine" ].

Definition go_signatures : list regex :=
  [ Seqs [Bol; Str "package"; ws_plus; Str "main"];
    Seqs [Bol; Str "func"; ws_plus; word_plus];
    Str "fmt.Print" ].

Definition rust_signatures : list regex :=
  [ Seqs [Bol; Str "fn"; ws_plus; word_plus];
    Seqs [Str "println!"; ws_star; Chr "("];                       (* /println!\s*\(/ *)
    Seqs [Str "let"; ws_plus; Str "mut"; ws_plus] ].               (* /let\s+mut\s+/ *)

(** A chain [r1.test(s) || r2.test(s) || ...]. *)
Definition any_matches (signatures : list regex) (s : text) : bool :=
  existsb (fun r => test r s) signatures.

Definition detectLanguage (code : text) : text :=
  let trimmedCode := trim code in
  if any_matches cpp_signatures trimmedCode then lit "cpp"
  else if any_matches python_signatures trimmedCode then lit "python"
  else if any_matches javascript_signatures trimmedCode then
    if includes (lit ": ") trimmedCode && includes (lit "function") trimmedCode
    then lit "typescript" else lit "javascript"
  else if any_matches java_signatures trimmedCode then lit "java"
  else if any_matches csharp_signatures trimmedCode then lit "csharp"
  else if any_matches go_signatures trimmedCode then lit "go"
  else if any_matches rust_signatures trimmedCode then lit "rust"
  else lit "plaintext".

(** The signature sets in the order they are tried. *)
Definition all_signatures : list regex :=
  cpp_signatures ++ python_signatures ++ javascript_signatures
    ++ java_signatures ++ csharp_signatures ++ go_signatures
    ++ rust_signatures.

(** ** Pattern objects on the heap

    The functions above give every use of a pattern a value of its own.
    Between the steps of a call, and between calls, a pattern object with
    the g flag is shared: [test] leaves its [lastIndex] behind for the next
    [test].  Here the objects live in a heap, a regular expression literal
    allocates one, and [test] and [replace] read and write the object at an
    address.  The patterns of the fix rules are the only ones that are
    tested with the g flag.  The literals of the converters are passed to
    [replace], which sets [lastIndex] to 0 before it scans, and those of
    [extractFunctionName] and [detectLanguage] have no g flag, so [match]
    and [test] start at 0 and leave [lastIndex] alone: these functions do
    not read the heap. *)

Definition heap : Type := list regexp.

(** A computation that reads and writes the heap. *)
Definition Heap (A : Type) : Type := heap -> A * heap.

Definition unit_heap {A : Type} (a : A) : Heap A := fun h => (a, h).

Definition bind_heap {A B : Type} (c : Heap A) (f : A -> Heap B) : Heap B :=
  fun h => let (a, h') := c h in f a h'.

Notation "x <<- c ;; k" := (bind_heap c (fun x => k))
  (at level 61, c at next level, right associativity).

(** Evaluating a literal [/r/g]: a new object, with [lastIndex = 0]. *)
Definition new_RegExp (r : regex) : Heap nat :=
  fun h => (length h, h ++ [RegExp r 0]).

(** Writing the object at an address. *)
Fixpoint store (a : nat) (re : regexp) (h : heap) : heap :=
  match h, a with
  | [], _ => []
  | _ :: h', 0 => re :: h'
  | x :: h', S a' => x :: store a' re h'
  end.

(** [pattern.test(s)] for the object at [a].  An address comes from a
    literal, so it holds an object; the other case is never reached. *)
Definition RegExp_test (a : nat) (s : text) : Heap bool :=
  fun h =>
    match nth_error h a with
    | Some re => let (found, re') := regexp_test re s in (found, store a re' h)
    | None => (false, h)
    end.

(** [s.replace(pattern, tmpl)] for the object at [a]. *)
Definition String_replace (a : nat) (tmpl : text) (s : text) : Heap text :=
  fun h =>
    match nth_error h a with
    | Some re =>
        let (s', re') := regexp_replace re (by_template (source re) tmpl) s in
        (s', store a re' h)
    | None => (s, h)
    end.

(** An element of the array [errorPatterns]: its pattern is a reference. *)
Record rule_object : Type := RuleObject {
  pattern_at : nat;
  replacement_text : text;
  comment_text : text
}.

(** Evaluating the array literal: one new pattern object per element, in
    order. *)
Fixpoint new_rules (literals : list fix_rule) : Heap (list rule_object) :=
  match literals with
  | [] => unit_heap []
  | rule :: literals' =>
      a <<- new_RegExp (source (pattern rule)) ;;
      rules <<- new_rules literals' ;;
      unit_heap (RuleObject a (replacement rule) (comment rule) :: rules)
  end.

(** The body of the [forEach] callback, on the heap. *)
Definition apply_rule_at (fixedCode : text) (rule : rule_object) : Heap text :=
  found <<- RegExp_test (pattern_at rule) fixedCode ;;
  if found then
    fixedCode1 <<-
      String_replace (pattern_at rule) (replacement_text rule) fixedCode ;;
    unit_heap
      (if negb (includes (comment_text rule) fixedCode1)
       then replace_first (replacement_text rule)
              (replacement_text rule ++ lit "  // " ++ comment_text rule)
              fixedCode1
       else fixedCode1)
  else unit_heap fixedCode.

(** [xs.forEach(x => { acc = f(acc, x) })] *)
Fixpoint for_each {A B : Type} (f : A -> B -> Heap A) (xs : list B) (acc : A)
  : Heap A :=
  match xs with
  | [] => unit_heap acc
  | x :: xs' => acc' <<- f acc x ;; for_each f xs' acc'
  end.

(** [fixLogicalErrors] with its pattern objects on the heap. *)
Definition fixLogicalErrors_on_heap (code language : text) : Heap text :=
  rules <<- new_rules errorPatterns ;;
  for_each apply_rule_at rules code.

(** [convertCode] with the heap; only fix mode touches it. *)
Definition convertCode_on_heap (now : nat)
  (code sourceLanguage targetLanguage : text) (mode : Mode)
  : Heap (settled text) :=
  match mode with
  | ModeFix =>
      fixedCode <<- fixLogicalErrors_on_heap code sourceLanguage ;;
      unit_heap (Settled (now + 1500) (Ok fixedCode))
  | ModeConvert =>
      unit_heap
        (Settled (now + 1500)
           (Ok (performLanguageConversion code sourceLanguage targetLanguage)))
  end.

(** ** The language catalogue *)

(** The [value] and the [label] of every entry of [SUPPORTED_LANGUAGES]. *)
Definition SUPPORTED_LANGUAGES : list (text * text) :=
  [ (lit "javascript", lit "JavaScript");
    (lit "typescript", lit "TypeScript");
    (lit "python", lit "Python");
    (lit "java", lit "Java");
    (lit "cpp", lit "C++");
    (lit "csharp", lit "C#");
    (lit "go", lit "Go");
    (lit "rust", lit "Rust");
    (lit "plaintext", lit "Plain Text") ].

(** ** The callers in the application (App.tsx and TestRunner.tsx) *)

(** [prev => [newConversion, ...prev.slice(0, 9)]], the update of the
    conversion history that [handleConvert] passes to [setConversions]. *)
Definition push_conversion {A : Type} (newConversion : A) (prev : list A)
  : list A :=
  newConversion :: firstn 9 prev.

(** testResults.filter(result => result.passed).length *)
Definition passedTests {number : Type} (testResults : list (TestResult number))
  : nat :=
  length (filter passed testResults).

(** testResults.length *)
Definition totalTests {number : Type} (testResults : list (TestResult number))
  : nat :=
  length testResults.

(** * The vocabulary of the properties *)

(** ** Worked inputs *)

Definition is_even_py : text :=
  unlines [lit "def is_even(n):"; lit "    return n % 2 != 0"].

Definition is_even_js : text :=
  unlines [lit "function isEven(n) {"; lit "  return n % 2 !== 0;"; lit "}"].

Definition is_even_java : text :=
  unlines [lit "public static boolean isEven(int n) {";
           lit "  return n % 2 != 0;";
           lit "}"].

Definition is_even_cpp : text :=
  unlines [lit "bool isEven(int n) {"; lit "  return n % 2 != 0;"; lit "}"].

Definition two_lines : text := unlines [lit "a"; lit "b"].

(** The inverted parity test and its repair by the first fix rule. *)
Definition parity_bug : text := lit "n % 2 != 0".
Definition parity_fixed : text := lit "n % 2 == 0".

(** A snippet in which deleting [&& true] joins the halves of an inverted
    parity test. *)
Definition joined_by_deletion : text :=
  unlines [lit "a = n % 2 != 0;"; lit "b = n % 2 !&& true= 0;"].

(** ** Characters and lines *)

Fixpoint count_char (c : ascii) (s : text) : nat :=
  match s with
  | [] => 0
  | x :: s' => (if Ascii.eqb x c then 1 else 0) + count_char c s'
  end.

(** A text without a line break. *)
Definition single_line (l : text) : Prop := ~ In nl l.

(** A line has ink when some character of it is not white space. *)
Definition has_ink (s : text) : bool := existsb (fun c => negb (is_space c)) s.

(** A line of the output: not blank, and without a line break. *)
Definition inked_line (l : text) : Prop :=
  is_empty (trim l) = false /\ single_line l.

(** ** The block reconstruction, read off its loops *)

(** The lines of the rewritten text that the line loop keeps. *)
Definition kept_lines (converted : text) : list text :=
  filter (fun line => negb (is_empty (trim line))) (split_on nl converted).

(** What the line loop pushes for the kept lines: each line trimmed and
    indented by the number of kept lines before it that contain an opening
    brace. *)
Fixpoint reindented (lvl : nat) (kept : list text) : list text :=
  match kept with
  | [] => []
  | line :: kept' =>
      (indent lvl ++ trim line)
        :: reindented (if includes (lit "{") line then S lvl else lvl) kept'
  end.

(** What the closing loop pushes: the closing braces, innermost first. *)
Fixpoint closing_lines (n : nat) : list text :=
  match n with
  | 0 => []
  | S n' => (indent n' ++ lit "}") :: closing_lines n'
  end.

(** The number of kept lines with an opening brace. *)
Definition opened (kept : list text) : nat :=
  length (filter (includes (lit "{")) kept).

(** ** Test cases and their results *)

(** The two values whose properties cannot be read. *)
Definition nullish {number : Type} (v : value number) : bool :=
  match v with
  | VUndefined | VNull => true
  | _ => false
  end.

(** What one result has to do with its test case. *)
Definition reports {number : Type} (testCase : value number)
  (r : TestResult number) : Prop :=
  get_field testCase (lit "input") = Ok (input r) /\
  get_field testCase (lit "expected") = Ok (expected r).

(** ** A character analysis of patterns

    For the overlap arguments on the fix rules it is enough to know which
    characters a match can hold, which it can end with, which it can hold
    after its first character, and which a capture can hold.  The sets are
    computed from the pattern; they are upper bounds. *)

Fixpoint all_chars (r : regex) (c : ascii) : bool :=
  match r with
  | Chr x => Ascii.eqb c x
  | Cls k => in_class k c
  | Seq a b | Alt a b => all_chars a c || all_chars b c
  | Star a | Lazy a | Grp _ a => all_chars a c
  | _ => false
  end.

Fixpoint may_be_empty (r : regex) : bool :=
  match r with
  | Chr _ | Cls _ => false
  | Seq a b => may_be_empty a && may_be_empty b
  | Alt a b => may_be_empty a || may_be_empty b
  | Grp _ a => may_be_empty a
  | _ => true
  end.

Fixpoint last_chars (r : regex) (c : ascii) : bool :=
  match r with
  | Chr x => Ascii.eqb c x
  | Cls k => in_class k c
  | Seq a b => last_chars b c || (may_be_empty b && last_chars a c)
  | Alt a b => last_chars a c || last_chars b c
  | Star a | Lazy a | Grp _ a => last_chars a c
  | _ => false
  end.

Fixpoint tail_chars (r : regex) (c : ascii) : bool :=
  match r with
  | Seq a b => tail_chars a c || all_chars b c
  | Alt a b => tail_chars a c || tail_chars b c
  | Star a | Lazy a => all_chars a c
  | Grp _ a => tail_chars a c
  | _ => false
  end.

Fixpoint group_chars (n : nat) (r : regex) (c : ascii) : bool :=
  match r with
  | Seq a b | Alt a b => group_chars n a c || group_chars n b c
  | Star a | Lazy a => group_chars n a c
  | Grp m a => ((n =? m) && all_chars a c) || group_chars n a c
  | _ => false
  end.

Definition all_in (p : ascii -> bool) (u : text) : Prop :=
  Forall (fun c => p c = true) u.

Definition caps_in (r : regex) (cs : list (nat * text)) : Prop :=
  Forall (fun nt => all_in (group_chars (fst nt) r) (snd nt)) cs.

(** A matched text [u] with captures [cs] stays within the sets of [r]. *)
Record shape (r : regex) (u : text) (cs : list (nat * text)) : Prop := Shape {
  shape_all : all_in (all_chars r) u;
  shape_empty : u = [] -> may_be_empty r = true;
  shape_last : forall v c, u = v ++ [c] -> last_chars r c = true;
  shape_tail : all_in (tail_chars r) (tl u);
  shape_caps : caps_in r cs
}.

(** The matcher went from [st] to [st'] by taking [u] and capturing [cs]. *)
Record extends (st st' : mstate) (u : text) (cs : list (nat * text)) : Prop :=
  Extends {
  ext_rest : rest st = u ++ rest st';
  ext_before : before st' = rev u ++ before st;
  ext_taken : taken st' = taken st + length u;
  ext_caps : caps st' = cs ++ caps st
}.

Definition sound_at (r : regex) : Prop :=
  forall st k res,
    exec r st k = Some res ->
    exists st' u cs, extends st st' u cs /\ shape r u cs /\ k st' = Some res.

(** ** The shape of a global replacement

    For a pattern that cannot match the empty text, the scan splits the
    text into copied characters and matched parts, and the result holds the
    copied characters and, for every matched part, its replacement. *)

Inductive scanned (r : regex) (f : replacer) : text -> text -> text -> Prop :=
| scanned_end (bef : text) : scanned r f bef [] []
| scanned_copy (bef : text) (c : ascii) (s o : text) :
    match_here r bef (c :: s) = None ->
    scanned r f (c :: bef) s o ->
    scanned r f bef (c :: s) (c :: o)
| scanned_put (bef u s o : text) (m : rmatch) :
    u <> [] ->
    match_here r bef (u ++ s) = Some m ->
    mlen m = length u ->
    scanned r f (rev u ++ bef) s o ->
    scanned r f bef (u ++ s) (f u (mcaps m) (rev bef) s ++ o).

(** ** Texts that are apart *)

(** Two texts are apart when no occurrence of the first overlaps an
    occurrence of the second. *)
Definition apart (w m : text) : Prop :=
  forall a b c d,
    a ++ w ++ b = c ++ m ++ d ->
    length a + length w <= length c \/ length c + length m <= length a.

(** One of the two texts is a prefix of the other. *)
Fixpoint agree (x y : text) : bool :=
  match x, y with
  | [], _ | _, [] => true
  | a :: x', b :: y' => Ascii.eqb a b && agree x' y'
  end.

(** Every alignment in which the two texts share a position has a
    mismatch. *)
Definition apartb (w m : text) : bool :=
  forallb (fun d => negb (agree (skipn d w) m)) (seq 0 (length w))
  && forallb (fun e => negb (agree w (skipn e m))) (seq 1 (length m - 1)).

(** No proper prefix of [w] ends the text [pat]: an occurrence of [w]
    cannot begin inside an occurrence of [pat] and end after it. *)
Definition jointb (w pat : text) : bool :=
  forallb (fun i => negb (agree (rev (firstn i w)) (rev pat)))
    (seq 1 (length w - 1)).

(** ** The steps of a fix rule *)

(** A rule whose pattern object has not been used yet. *)
Definition fresh (rule : fix_rule) : Prop := lastIndex (pattern rule) = 0.

(** The replacement of the rule, as [replace] computes it for a match. *)
Definition rule_replacer (rule : fix_rule) : replacer :=
  by_template (source (pattern rule)) (replacement rule).

(** The text the explanation step puts behind the replacement. *)
Definition rule_note (rule : fix_rule) : text := lit "  // " ++ comment rule.

(** The template of the explanation step stands for itself: none of its
    dollar signs starts a substitution when there are no captures. *)
Definition plain_note (rule : fix_rule) : Prop :=
  forall matched pre post,
    expand 0 matched pre post [] (replacement rule ++ rule_note rule)
    = replacement rule ++ rule_note rule.

(** The text after the first four rules, before the two rules that delete
    text. *)
Definition first_four (code : text) : text :=
  fold_left apply_rule (firstn 4 errorPatterns) code.

(** ** The dispatch table, the catalogue and white space *)

(** The pairs of languages that have a converter of their own. *)
Definition converter_pairs : list (text * text) :=
  [ (lit "python", lit "javascript");
    (lit "python", lit "typescript");
    (lit "python", lit "java");
    (lit "python", lit "cpp");
    (lit "javascript", lit "python");
    (lit "javascript", lit "typescript");
    (lit "java", lit "python");
    (lit "cpp", lit "python") ].

(** A text of white space only. *)
Definition blank (s : text) : bool := forallb is_space s.

(** ** Function headers and test batches *)

(** The keyword a name pattern starts with, for the languages whose pattern
    starts with one. *)
Definition header_keywords : list (text * text) :=
  [ (lit "python", lit "def");
    (lit "javascript", lit "function");
    (lit "typescript", lit "function");
    (lit "java", lit "public") ].

(** What follows a name: the end of the text, or a character that is not a
    word character. *)
Definition ends_word (after : text) : bool :=
  match after with
  | [] => true
  | y :: _ => negb (is_word y)
  end.

(** A function name that falls into none of the simulator's categories. *)
Definition generic_name (functionName : text) : bool :=
  negb (includes (lit "even") functionName
        || includes (lit "Even") functionName)
  && negb (includes (lit "add") functionName
           || includes (lit "sum") functionName)
  && negb (includes (lit "multiply") functionName).

(** A test case [{ input, expected }]. *)
Definition test_case {number : Type} (i e : value number) : value number :=
  VObj [(lit "input", i); (lit "expected", e)].

(** The arithmetic of the simulator on natural numbers, to run it on
    examples: exact for two numbers, and for [+] on two strings; the
    examples use no other operands. *)
Definition nat_add (a b : value nat) : value nat :=
  match a, b with
  | VNum _ x, VNum _ y => VNum nat (x + y)
  | VStr x, VStr y => VStr (x ++ y)
  | _, _ => VUndefined
  end.

Definition nat_mul (a b : value nat) : value nat :=
  match a, b with
  | VNum _ x, VNum _ y => VNum nat (x * y)
  | _, _ => VUndefined
  end.

Definition nat_rem (a b : value nat) : value nat :=
  match a, b with
  | VNum _ x, VNum _ (S y) => VNum nat (x mod S y)
  | _, _ => VUndefined
  end.

(** ** The matcher on a text of a known form *)

(** The state after the matcher has taken [u] and stands before [v]. *)
Definition advance (u v : text) (st : mstate) : mstate :=
  MState (rev u ++ before st) v (taken st + length u) (caps st).

(** ** The strict parity test and idle rules *)

(** The inverted parity test in its strict spelling, and its repair by the
    second fix rule. *)
Definition strict_bug : text := lit "n % 2 !== 0".
Definition strict_fixed : text := lit "n % 2 === 0".

(** No pattern of the fix rules occurs in the text. *)
Definition no_rule_fires (code : text) : bool :=
  forallb (fun rule => negb (test (source (pattern rule)) code)) errorPatterns.

(** ** Calls in a session *)

(** The references [new_rules] returns when the heap has [a] objects. *)
Fixpoint rules_from (a : nat) (literals : list fix_rule) : list rule_object :=
  match literals with
  | [] => []
  | rule :: literals' =>
      RuleObject a (replacement rule) (comment rule)
        :: rules_from (S a) literals'
  end.

(** The objects [new_rules] allocates. *)
Definition new_objects (literals : list fix_rule) : heap :=
  map (fun rule => RegExp (source (pattern rule)) 0) literals.

Section Sessions.

Variable number : Type.
Variables js_add js_mul js_rem : value number -> value number -> value number.
Variable num_eqb : number -> number -> bool.
Variables num_zero num_two : number.

(** A call of one of the two entry points, with its arguments. *)
Inductive call : Type :=
| CallConvert (code sourceLanguage targetLanguage : text) (mode : Mode)
| CallRunTests (code language : text) (testCases : list (value number)).

Inductive answer : Type :=
| AnswerText (s : settled text)
| AnswerResults (s : settled (list (TestResult number))).

(** A call made at time [now], on the heap the earlier calls left. *)
Definition perform (now : nat) (c : call) : Heap answer :=
  match c with
  | CallConvert code sourceLanguage targetLanguage mode =>
      s <<- convertCode_on_heap now code sourceLanguage targetLanguage mode ;;
      unit_heap (AnswerText s)
  | CallRunTests code language testCases =>
      unit_heap
        (AnswerResults
           (runTestCases js_add js_mul js_rem num_eqb num_zero num_two
              now code language testCases))
  end.

(** Calls made one after the other, each at its own time. *)
Fixpoint session (calls : list (nat * call)) : Heap (list answer) :=
  match calls with
  | [] => unit_heap []
  | (now, c) :: calls' =>
      a <<- perform now c ;;
      answers <<- session calls' ;;
      unit_heap (a :: answers)
  end.

(** What a call settles with, whenever that is. *)
Definition returned (a : answer)
  : completion text + completion (list (TestResult number)) :=
  match a with
  | AnswerText s => inl (outcome s)
  | AnswerResults s => inr (outcome s)
  end.

End Sessions.

Arguments CallConvert {number} code sourceLanguage targetLanguage mode.
Arguments CallRunTests {number} code language testCases.
Arguments AnswerText {number} s.
Arguments AnswerResults {number} s.
Arguments perform {number} js_add js_mul js_rem num_eqb num_zero num_two now c.
Arguments session {number} js_add js_mul js_rem num_eqb num_zero num_two calls.
Arguments returned {number} a.

(** * Properties *)

(** ** Texts *)

Lemma starts_with_spec (p s : text) :
  starts_with p s = true <-> exists t, s = p ++ t.
Proof.
  revert s; induction p as [|x p IH]; intros s; simpl.
  - split; [intros _; now exists s | reflexivity].
  - destruct s as [|y s]; simpl.
    + split; [discriminate | intros [t Ht]; discriminate].
    + rewrite andb_true_iff, Ascii.eqb_eq, IH. split.
      * intros [-> [t ->]]. now exists t.
      * intros [t Ht]. injection Ht as -> ->. split; [reflexivity | now exists t].
Qed.

Lemma includes_spec (w s : text) : includes w s = true <-> contains w s.
Proof.
  unfold contains. induction s as [|c s IH].
  - simpl. rewrite orb_false_r, starts_with_spec. split.
    + intros [t Ht]. now exists [], t.
    + intros [a [b Hab]]. destruct a; [|discriminate].
      simpl in Hab. destruct w; [|discriminate]. now exists [].
  - cbn [includes]. rewrite orb_true_iff, starts_with_spec, IH. split.
    + intros [[t Ht] | [a [b Hab]]].
      * exists [], t. exact Ht.
      * exists (c :: a), b. simpl. now rewrite Hab.
    + intros [a [b Hab]]. destruct a as [|x a].
      * left. now exists b.
      * right. injection Hab as -> ->. now exists a, b.
Qed.

Lemma includes_false (w s : text) : includes w s = false <-> ~ contains w s.
Proof.
  rewrite <- includes_spec. destruct (includes w s); split; congruence.
Qed.

Lemma contains_refl (w : text) : contains w w.
Proof. exists [], []. now rewrite app_nil_r. Qed.

Lemma contains_app_l (w s t : text) : contains w s -> contains w (t ++ s).
Proof.
  intros [a [b ->]]. exists (t ++ a), b. now rewrite app_assoc.
Qed.

Lemma contains_app_r (w s t : text) : contains w s -> contains w (s ++ t).
Proof.
  intros [a [b ->]]. exists a, (b ++ t). now rewrite <- !app_assoc.
Qed.

Lemma contains_cons (w s : text) (c : ascii) :
  contains w s -> contains w (c :: s).
Proof. apply (contains_app_l w s [c]). Qed.

Lemma contains_trans (u w s : text) :
  contains u w -> contains w s -> contains u s.
Proof.
  intros [a [b ->]] [c [d ->]].
  exists (c ++ a), (b ++ d). now rewrite <- !app_assoc.
Qed.

Ltac by_includes :=
  match goal with
  | |- contains _ _ => apply includes_spec; vm_compute; reflexivity
  | |- ~ contains _ _ => apply includes_false; vm_compute; reflexivity
  end.

(** ** The worked python to javascript conversion *)

(** C6: converting the two-line [is_even] snippet from python to javascript
    gives a text with as many opening as closing braces, in which the
    inequality test on [n % 2] has become [=== 0]. *)
Theorem python_is_even_to_javascript :
  let out :=
    performLanguageConversion is_even_py (lit "python") (lit "javascript") in
  out = convertPythonToJavaScript is_even_py /\
  out = unlines [lit "function is_even(n) {";
                 lit "  return n % 2 === 0;";
                 lit "}"] /\
  count_char "{" out = count_char "}" out /\
  contains (lit "=== ") out /\
  contains (lit "n % 2 === 0") out /\
  ~ contains (lit "!=") out.
Proof.
  cbv zeta. repeat split; try by_includes; vm_compute; reflexivity.
Qed.

(** ** Language detection *)

Lemma existsb_app_false {A : Type} (f : A -> bool) (l1 l2 : list A) :
  existsb f (l1 ++ l2) = false -> existsb f l1 = false /\ existsb f l2 = false.
Proof. rewrite existsb_app. apply orb_false_elim. Qed.

(** C9: a text whose trimmed form matches no signature of any language is
    classified as plaintext; the empty text and a text of three spaces are
    such texts. *)
Theorem detectLanguage_plaintext (code : text)
  (Hnone : any_matches all_signatures (trim code) = false) :
  detectLanguage code = lit "plaintext" /\
  detectLanguage [] = lit "plaintext" /\
  detectLanguage (lit "   ") = lit "plaintext".
Proof.
  split; [|split; vm_compute; reflexivity].
  unfold any_matches, all_signatures in Hnone.
  repeat (apply existsb_app_false in Hnone;
          let H := fresh "H" in destruct Hnone as [H Hnone]).
  unfold detectLanguage, any_matches.
  now rewrite H, H0, H1, H2, H3, H4, Hnone.
Qed.

Lemma detectLanguage_plaintext_witness :
  detectLanguage (lit "hello, world") = lit "plaintext" /\
  detectLanguage [] = lit "plaintext" /\
  detectLanguage (lit "   ") = lit "plaintext".
Proof.
  apply (detectLanguage_plaintext (lit "hello, world")).
  vm_compute. reflexivity.
Defined.

(** Conversely, plaintext is only ever the answer of the last branch. *)
Lemma detectLanguage_plaintext_only (code : text) :
  detectLanguage code = lit "plaintext" ->
  any_matches all_signatures (trim code) = false.
Proof.
  unfold detectLanguage, any_matches, all_signatures.
  rewrite !existsb_app.
  repeat match goal with
         | |- context [if ?b then _ else _] => destruct b; simpl
         end; try discriminate; reflexivity.
Qed.

(** ** The bug-pre-fix pass of the conversion pipelines *)

(** C2, evaluated: three of the eight pipelines have no parity pre-fix.  The
    javascript to typescript pipeline keeps [n % 2 !== 0], the java to
    python and cpp to python pipelines keep [n % 2 != 0], while the
    javascript to python pipeline rewrites the same input. *)
Theorem pipelines_without_parity_fix :
  performLanguageConversion is_even_js (lit "javascript") (lit "typescript")
    = unlines [lit "function isEven(n: any): any {";
               lit "  return n % 2 !== 0;";
               lit "}"] /\
  performLanguageConversion is_even_java (lit "java") (lit "python")
    = unlines [lit "def isEven(n):"; lit "  return n % 2 != 0"; []] /\
  performLanguageConversion is_even_cpp (lit "cpp") (lit "python")
    = unlines [lit "def isEven(n):"; lit "  return n % 2 != 0"; []] /\
  performLanguageConversion is_even_js (lit "javascript") (lit "python")
    = unlines [lit "def isEven(n):"; lit "  return n % 2 == 0"; []].
Proof. repeat split; vm_compute; reflexivity. Qed.

(** ** The explanation comments of the fix rules *)

(** C7, evaluated: the off-by-one and bounds rules rewrite the text and add
    no explanation, because the text searched for is the replacement
    template with its [$1] left in; the boolean rules put the explanation at
    the very start of the text, because their replacement is empty. *)
Theorem fix_explanations_missing_or_misplaced :
  fixLogicalErrors (lit "x = arr[arr.length]") (lit "javascript")
    = lit "x = arr[arr.length - 1]" /\
  fixLogicalErrors (lit "for (i = 0; i < arr.length - 1; i++) {}")
      (lit "javascript")
    = lit "for (let i = 0; i < arr.length; i++) {}" /\
  fixLogicalErrors (lit "if (ok && true) { run(); }") (lit "javascript")
    = lit "  // Simplified: && true is redundantif (ok ) { run(); }" /\
  fixLogicalErrors (lit "if (ok || false) { run(); }") (lit "javascript")
    = lit "  // Simplified: || false is redundantif (ok ) { run(); }".
Proof. repeat split; vm_compute; reflexivity. Qed.

(** ** Lines *)

Lemma join_cons (sep l : text) (ls : list text) :
  ls <> [] -> join sep (l :: ls) = l ++ sep ++ join sep ls.
Proof. destruct ls; [congruence | reflexivity]. Qed.

Lemma split_on_not_nil (sep : ascii) (s : text) : split_on sep s <> [].
Proof.
  destruct s as [|c s]; simpl; [discriminate|].
  destruct (Ascii.eqb c sep); [discriminate|].
  destruct (split_on sep s); discriminate.
Qed.

Lemma join_split (s : text) : join [nl] (split_on nl s) = s.
Proof.
  induction s as [|c s IH]; [reflexivity|].
  simpl. destruct (Ascii.eqb_spec c nl) as [->|Hc].
  - rewrite join_cons by apply split_on_not_nil. simpl. now rewrite IH.
  - destruct (split_on nl s) as [|l ls] eqn:E.
    + now apply split_on_not_nil in E.
    + destruct ls as [|l' ls]; simpl in *; now rewrite <- IH.
Qed.

Lemma split_on_single_lines (s : text) : Forall single_line (split_on nl s).
Proof.
  induction s as [|c s IH]; simpl.
  - constructor; [intros [] | constructor].
  - destruct (Ascii.eqb_spec c nl) as [->|Hc].
    + constructor; [intros [] | exact IH].
    + destruct (split_on nl s) as [|l ls]; [repeat constructor; intros [H|[]]; congruence|].
      inversion IH as [|? ? Hl Hls]; subst. constructor; [|exact Hls].
      intros [H|H]; [congruence | exact (Hl H)].
Qed.

Lemma split_on_line_app (l s : text) :
  single_line l -> split_on nl (l ++ nl :: s) = l :: split_on nl s.
Proof.
  induction l as [|c l IH]; intros Hl; cbn [app split_on].
  - now rewrite Ascii.eqb_refl.
  - destruct (Ascii.eqb_spec c nl) as [->|Hc]; [exfalso; apply Hl; now left|].
    rewrite IH; [reflexivity | intros H; apply Hl; now right].
Qed.

Lemma split_on_line (l : text) : single_line l -> split_on nl l = [l].
Proof.
  induction l as [|c l IH]; intros Hl; simpl; [reflexivity|].
  destruct (Ascii.eqb_spec c nl) as [->|Hc]; [exfalso; apply Hl; now left|].
  rewrite IH; [reflexivity | intros H; apply Hl; now right].
Qed.

Lemma split_join (ls : list text) :
  ls <> [] -> Forall single_line ls -> split_on nl (join [nl] ls) = ls.
Proof.
  induction ls as [|l ls IH]; [congruence|]. intros _ Hall.
  inversion Hall as [|? ? Hl Hls]; subst.
  destruct ls as [|l' ls].
  - simpl. now apply split_on_line.
  - rewrite join_cons by discriminate. cbn [app].
    rewrite split_on_line_app by exact Hl.
    now rewrite IH by (discriminate || exact Hls).
Qed.

Lemma count_char_zero_single_line (s : text) :
  count_char nl s = 0 -> single_line s.
Proof.
  induction s as [|c s IH]; simpl; [intros _ []|].
  destruct (Ascii.eqb_spec c nl) as [->|Hc]; [discriminate|].
  intros H [E|E]; [congruence | exact (IH H E)].
Qed.

(** ** The template fallback *)

(** C3, as stated, fails: a source of two lines is routed to the fallback
    for go to rust, and the scaffold does not contain it, since the second
    line is only present behind its comment prefix. *)
Lemma template_drops_verbatim_source :
  switch_on (lit "go" ++ lit "-" ++ lit "rust") supported_pairs = None /\
  ~ contains two_lines
      (performLanguageConversion two_lines (lit "go") (lit "rust")).
Proof. split; [vm_compute; reflexivity | by_includes]. Qed.

Lemma comment_body_lines (code : text) :
  split_on nl (comment_body code)
  = map (fun line => lit " * " ++ line) (split_on nl code).
Proof.
  unfold comment_body. apply split_join.
  - intros E. apply map_eq_nil in E. now apply split_on_not_nil in E.
  - apply Forall_map. eapply Forall_impl; [|apply split_on_single_lines].
    intros l Hl H. apply in_app_or in H as [H|H]; [|exact (Hl H)].
    vm_compute in H. repeat destruct H as [H|H]; try discriminate; exact H.
Qed.

(** C3, amended: for a pair routed to the fallback the scaffold is the
    header, the comment body and the trailer; the lines of the comment body
    are exactly the lines of the source, in order, each behind the prefix
    [ * ]; joining the source lines gives back the source; and a source of
    one line is contained verbatim. *)
Theorem template_embeds_source_lines (code sourceLanguage targetLanguage : text)
  (Hfallback : switch_on (sourceLanguage ++ lit "-" ++ targetLanguage)
                 supported_pairs = None) :
  let out := performLanguageConversion code sourceLanguage targetLanguage in
  out = template_head sourceLanguage targetLanguage
          ++ comment_body code
          ++ template_tail sourceLanguage targetLanguage /\
  split_on nl (comment_body code)
    = map (fun line => lit " * " ++ line) (split_on nl code) /\
  join [nl] (split_on nl code) = code /\
  (count_char nl code = 0 -> contains code out).
Proof.
  cbv zeta. unfold performLanguageConversion. rewrite Hfallback.
  split; [reflexivity|]. split; [apply comment_body_lines|].
  split; [apply join_split|].
  intros Hone. unfold generateConversionTemplate, comment_body.
  rewrite (split_on_line code (count_char_zero_single_line code Hone)).
  exists (template_head sourceLanguage targetLanguage ++ lit " * "),
         (template_tail sourceLanguage targetLanguage).
  cbn [map join]. now rewrite <- !app_assoc.
Qed.

Lemma template_embeds_source_lines_witness :
  let out := performLanguageConversion two_lines (lit "go") (lit "rust") in
  out = template_head (lit "go") (lit "rust")
          ++ comment_body two_lines
          ++ template_tail (lit "go") (lit "rust") /\
  split_on nl (comment_body two_lines)
    = map (fun line => lit " * " ++ line) (split_on nl two_lines) /\
  join [nl] (split_on nl two_lines) = two_lines /\
  (count_char nl two_lines = 0 -> contains two_lines out).
Proof.
  apply (template_embeds_source_lines two_lines (lit "go") (lit "rust")).
  vm_compute. reflexivity.
Defined.

(** ** Block reconstruction *)

Lemma trim_start_suffix (s : text) : exists p, s = p ++ trim_start s.
Proof.
  induction s as [|c s [p IH]]; [now exists []|]. simpl.
  destruct (is_space c); [|now exists []].
  exists (c :: p). simpl. now rewrite <- IH.
Qed.

Lemma has_ink_trim_start (s : text) : has_ink (trim_start s) = has_ink s.
Proof.
  induction s as [|c s IH]; [reflexivity|]. simpl.
  destruct (is_space c) eqn:E; simpl; [exact IH | now rewrite E].
Qed.

Lemma trim_start_empty (s : text) : is_empty (trim_start s) = negb (has_ink s).
Proof.
  induction s as [|c s IH]; [reflexivity|]. simpl.
  destruct (is_space c); simpl; [exact IH | reflexivity].
Qed.

Lemma has_ink_rev (s : text) : has_ink (rev s) = has_ink s.
Proof.
  unfold has_ink. induction s as [|c s IH]; [reflexivity|]. simpl.
  rewrite existsb_app, IH. simpl. now rewrite orb_false_r, orb_comm.
Qed.

Lemma is_empty_rev (s : text) : is_empty (rev s) = is_empty s.
Proof.
  destruct s as [|c s]; [reflexivity|]. simpl.
  destruct (rev s); reflexivity.
Qed.

Lemma has_ink_trim (s : text) : has_ink (trim s) = has_ink s.
Proof.
  unfold trim, trim_end.
  now rewrite has_ink_rev, has_ink_trim_start, has_ink_rev, has_ink_trim_start.
Qed.

Lemma trim_empty (s : text) : is_empty (trim s) = negb (has_ink s).
Proof.
  unfold trim, trim_end.
  now rewrite is_empty_rev, trim_start_empty, has_ink_rev, has_ink_trim_start.
Qed.

Lemma in_trim (c : ascii) (s : text) : In c (trim s) -> In c s.
Proof.
  unfold trim, trim_end. intros H. apply in_rev in H.
  destruct (trim_start_suffix (rev (trim_start s))) as [p Hp].
  assert (H1 : In c (rev (trim_start s))) by (rewrite Hp; apply in_or_app; now right).
  apply in_rev in H1.
  destruct (trim_start_suffix s) as [q Hq]. rewrite Hq. apply in_or_app. now right.
Qed.

Lemma has_ink_app (a b : text) : has_ink (a ++ b) = has_ink a || has_ink b.
Proof. apply existsb_app. Qed.

Lemma in_indent (c : ascii) (n : nat) : In c (indent n) -> c = " "%char.
Proof.
  induction n as [|n IH]; simpl; [intros []|].
  intros [H|[H|H]]; [now subst | now subst | exact (IH H)].
Qed.

Lemma scan_lines_spec (lines : list text) (res : list text) (lvl : nat) :
  let kept := filter (fun line => negb (is_empty (trim line))) lines in
  fold_left scan_line lines (BraceState res lvl lvl)
  = BraceState (res ++ reindented lvl kept)
      (lvl + opened kept) (lvl + opened kept).
Proof.
  cbv zeta. revert res lvl. induction lines as [|l lines IH]; intros res lvl.
  - simpl. unfold opened. simpl. now rewrite app_nil_r, Nat.add_0_r.
  - cbn [fold_left filter]. unfold scan_line at 2. cbn [result braceCount indentLevel].
    destruct (negb (is_empty (trim l))) eqn:Hl.
    + cbn [reindented]. unfold opened. cbn [filter].
      destruct (includes (lit "{") l) eqn:Hb.
      * rewrite IH. cbn [length]. rewrite <- app_assoc. cbn [app].
        unfold opened. f_equal; lia.
      * destruct (starts_with (lit "return") (trim l)
                  || starts_with (lit "console.log") (trim l));
          rewrite IH; rewrite <- app_assoc; reflexivity.
    + apply IH.
Qed.

Lemma close_braces_spec (n : nat) (res : list text) :
  close_braces n res n = res ++ closing_lines n.
Proof.
  revert res. induction n as [|n IH]; intros res; simpl.
  - now rewrite app_nil_r.
  - rewrite IH, <- app_assoc. reflexivity.
Qed.

Lemma rebuild_blocks_spec (converted : text) :
  rebuild_blocks converted
  = join [nl] (reindented 0 (kept_lines converted)
                 ++ closing_lines (opened (kept_lines converted))).
Proof.
  unfold rebuild_blocks.
  rewrite (scan_lines_spec (split_on nl converted) [] 0).
  cbn [result braceCount indentLevel]. rewrite close_braces_spec.
  reflexivity.
Qed.

Lemma inked_indent (lvl : nat) (t : text) :
  has_ink t = true -> single_line t -> inked_line (indent lvl ++ t).
Proof.
  intros Hink Hone. split.
  - now rewrite trim_empty, has_ink_app, Hink, orb_true_r.
  - intros H. apply in_app_or in H as [H|H]; [|exact (Hone H)].
    apply in_indent in H. discriminate.
Qed.

Lemma reindented_inked (kept : list text) (lvl : nat) :
  Forall (fun l => has_ink l = true /\ single_line l) kept ->
  Forall inked_line (reindented lvl kept).
Proof.
  revert lvl. induction kept as [|l kept IH]; intros lvl Hall; simpl.
  - constructor.
  - inversion Hall as [|? ? [Hink Hone] Hrest]; subst. constructor.
    + apply inked_indent; [now rewrite has_ink_trim|].
      intros H. apply Hone. now apply in_trim.
    + now apply IH.
Qed.

Lemma closing_lines_inked (n : nat) : Forall inked_line (closing_lines n).
Proof.
  induction n as [|n IH]; simpl; constructor; [|exact IH].
  apply inked_indent; [reflexivity|].
  intros [H|[]]. discriminate.
Qed.

Lemma kept_lines_inked (converted : text) :
  Forall (fun l => has_ink l = true /\ single_line l) (kept_lines converted).
Proof.
  unfold kept_lines. apply Forall_forall. intros l Hl.
  apply filter_In in Hl as [Hin Hk]. split.
  - rewrite trim_empty, negb_involutive in Hk. exact Hk.
  - pose proof (split_on_single_lines converted) as Hall.
    rewrite Forall_forall in Hall. now apply Hall.
Qed.

(** C10: the python to javascript conversion emits exactly the lines of the
    rewritten text that are not blank, each trimmed and re-indented, followed
    by one closing brace per kept line with an opening brace; every emitted
    line has ink and no line break, so the output, when it is not empty, has
    no blank line.  The python to typescript pipeline starts from this
    output. *)
Theorem convertPythonToJavaScript_drops_blank_lines (code : text) :
  let kept := kept_lines (py_to_js_rewrite code) in
  let emitted := reindented 0 kept ++ closing_lines (opened kept) in
  let out := convertPythonToJavaScript code in
  out = join [nl] emitted /\
  Forall inked_line emitted /\
  (emitted <> [] -> split_on nl out = emitted) /\
  (emitted = [] -> out = []) /\
  convertPythonToTypeScript code
    = replace_all re_function (annotate_function true) out.
Proof.
  cbv zeta.
  assert (Hall : Forall inked_line
                   (reindented 0 (kept_lines (py_to_js_rewrite code))
                      ++ closing_lines
                           (opened (kept_lines (py_to_js_rewrite code))))).
  { apply Forall_app. split.
    - apply reindented_inked, kept_lines_inked.
    - apply closing_lines_inked. }
  assert (Hout : convertPythonToJavaScript code
                 = join [nl]
                     (reindented 0 (kept_lines (py_to_js_rewrite code))
                        ++ closing_lines
                             (opened (kept_lines (py_to_js_rewrite code)))))
    by apply rebuild_blocks_spec.
  split; [exact Hout|]. split; [exact Hall|]. split; [|split].
  - intros Hne. rewrite Hout. apply split_join; [exact Hne|].
    eapply Forall_impl; [|exact Hall]. now intros l [_ H].
  - intros E. rewrite Hout, E. reflexivity.
  - reflexivity.
Qed.

(** ** The test simulator *)

Section TestSimulatorProperties.

Variable number : Type.
Variables js_add js_mul js_rem : value number -> value number -> value number.
Variable num_eqb : number -> number -> bool.
Variables num_zero num_two : number.

Local Abbreviation run_case' :=
  (run_case js_add js_mul js_rem num_eqb num_zero num_two).
Local Abbreviation evaluate_case' :=
  (evaluate_case js_add js_mul js_rem num_eqb num_zero num_two).
Local Abbreviation runTestCases' :=
  (runTestCases js_add js_mul js_rem num_eqb num_zero num_two).

Lemma get_field_defined (v : value number) (name : text) :
  nullish v = false -> exists x, get_field v name = Ok x.
Proof. destruct v; simpl; try discriminate; intros _; eauto. Qed.

Lemma get_field_null (name : text) :
  get_field (@VNull number) name
  = Throw (TypeError (lit "Cannot read properties of null (reading '"
                        ++ name ++ lit "')")).
Proof. reflexivity. Qed.

Lemma evaluate_case_reports (functionName : text) (testCase : value number)
  (r : TestResult number) :
  evaluate_case' functionName testCase = Ok r ->
  reports testCase r /\ error r = None.
Proof.
  unfold evaluate_case, reports.
  repeat match goal with
         | |- context [if ?b then _ else _] => destruct b
         end;
    destruct (get_field testCase (lit "input")) as [i|] eqn:Ei;
    destruct (get_field testCase (lit "expected")) as [x|] eqn:Ex;
    simpl; try discriminate;
    try (destruct (get_first i); simpl; try discriminate);
    try (destruct (destructure_pair i); simpl; try discriminate);
    intros H; injection H as <-; simpl; auto.
Qed.

(** A test case that is an object, an array or a primitive other than
    [null] and [undefined] always gets a result: either the one computed,
    or the error report with [passed = false], [actual = null] and the
    message. *)
Lemma run_case_defined (code language : text) (testCase : value number) :
  nullish testCase = false ->
  exists r,
    run_case' code language testCase = Ok r /\
    reports testCase r /\
    (forall e,
       evaluate_case' (extractFunctionName code language) testCase = Throw e ->
       passed r = false /\ actual r = VNull /\
       error r = Some (error_message e)).
Proof.
  intros Hobj. unfold run_case, try_catch.
  destruct (evaluate_case' (extractFunctionName code language) testCase)
    as [r|e] eqn:E.
  - exists r. split; [reflexivity|]. split; [|discriminate].
    now apply evaluate_case_reports in E.
  - unfold report_error, reports.
    destruct (get_field_defined testCase (lit "expected") Hobj) as [x Hx].
    destruct (get_field_defined testCase (lit "input") Hobj) as [i Hi].
    rewrite Hx, Hi. simpl. eexists. split; [reflexivity|]. simpl.
    split; [auto|]. intros e' He'. injection He' as <-. auto.
Qed.

(** One result per test case, in order, for a list without [null] and
    [undefined]. *)
Lemma runTestCases_shape (now : nat) (code language : text)
  (testCases : list (value number)) :
  forallb (fun tc => negb (nullish tc)) testCases = true ->
  exists results,
    outcome (runTestCases' now code language testCases) = Ok results /\
    length results = length testCases /\
    Forall2 reports testCases results.
Proof.
  unfold runTestCases. cbn [outcome].
  induction testCases as [|tc tcs IH]; intros Hall.
  - exists []. repeat split; constructor.
  - simpl in Hall. apply andb_prop in Hall as [Htc Htcs].
    apply negb_true_iff in Htc.
    destruct (run_case_defined code language tc Htc) as [r [Hr [Hrep _]]].
    destruct (IH Htcs) as [rs [Hrs [Hlen Hall2]]].
    exists (r :: rs). cbn [map_result]. rewrite Hr, Hrs. simpl.
    repeat split; [now rewrite Hlen | now constructor].
Qed.

Lemma map_result_app {A B : Type} (f : A -> completion B) (xs ys : list A)
  (rx ry : list B) :
  map_result f xs = Ok rx -> map_result f ys = Ok ry ->
  map_result f (xs ++ ys) = Ok (rx ++ ry).
Proof.
  revert rx. induction xs as [|x xs IH]; intros rx Hx Hy; simpl in *.
  - injection Hx as <-. exact Hy.
  - destruct (f x) as [y|]; simpl in *; [|discriminate].
    destruct (map_result f xs) as [r|]; simpl in *; [|discriminate].
    injection Hx as <-. now rewrite (IH r eq_refl Hy).
Qed.

(** A case whose evaluation throws is reported in place, and the results
    around it are those of the batch without it. *)
Lemma runTestCases_isolation (now : nat) (code language : text)
  (before after : list (value number)) (bad : value number) (e : exn)
  (rb ra : list (TestResult number)) :
  nullish bad = false ->
  evaluate_case' (extractFunctionName code language) bad = Throw e ->
  outcome (runTestCases' now code language (before ++ after))
    = Ok (rb ++ ra) ->
  length rb = length before ->
  exists r,
    outcome (runTestCases' now code language (before ++ bad :: after))
      = Ok (rb ++ r :: ra) /\
    passed r = false /\ actual r = VNull /\
    error r = Some (error_message e) /\ reports bad r.
Proof.
  unfold runTestCases. cbn [outcome].
  intros Hobj He Hrest Hlen.
  destruct (run_case_defined code language bad Hobj) as [r [Hr [Hrep Herr]]].
  destruct (Herr e He) as [Hp [Ha Hm]].
  exists r. split; [|auto].
  revert rb Hrest Hlen. induction before as [|tc tcs IH]; intros rb Hrest Hlen.
  - destruct rb; [|discriminate]. simpl in *. now rewrite Hr, Hrest.
  - destruct rb as [|r0 rb]; [discriminate|]. simpl in *.
    destruct (run_case' code language tc) as [y|]; simpl in *; [|discriminate].
    destruct (map_result (run_case' code language) (tcs ++ after)) as [rs|] eqn:E;
      simpl in *; [|discriminate].
    injection Hrest as -> ->. injection Hlen as Hlen.
    now rewrite (IH rb eq_refl Hlen).
Qed.

Lemma run_case_null (code language : text) :
  run_case' code language VNull
  = Throw (TypeError
             (lit "Cannot read properties of null (reading 'expected')")).
Proof.
  unfold run_case, try_catch, evaluate_case, report_error.
  repeat match goal with
         | |- context [if ?b then _ else _] => destruct b
         end; reflexivity.
Qed.

Lemma map_result_throw {A B : Type} (f : A -> completion B)
  (xs ys : list A) (x : A) (e : exn) :
  f x = Throw e -> exists e', map_result f (xs ++ x :: ys) = Throw e'.
Proof.
  intros Hx. induction xs as [|a xs [e' IH]]; simpl.
  - rewrite Hx. now exists e.
  - destruct (f a); simpl; [|eauto]. rewrite IH. simpl. eauto.
Qed.

(** C5, evaluated: a batch with a [null] test case settles with an
    exception, wherever the [null] stands and whatever the other cases
    are, because the catch block reads [testCase.expected] again. *)
Theorem null_case_rejects_batch (now : nat) (code language : text)
  (before after : list (value number)) :
  run_case' code language VNull
    = Throw (TypeError
               (lit "Cannot read properties of null (reading 'expected')")) /\
  exists e,
    outcome (runTestCases' now code language (before ++ VNull :: after))
      = Throw e.
Proof.
  split; [apply run_case_null|].
  unfold runTestCases. cbn [outcome].
  eapply map_result_throw. apply run_case_null.
Qed.

(** C4, evaluated: for the list that holds only [null] no result list is
    returned at all. *)
Theorem null_case_returns_no_list (now : nat) (code language : text) :
  outcome (runTestCases' now code language [VNull])
    = Throw (TypeError
               (lit "Cannot read properties of null (reading 'expected')")) /\
  forall results,
    outcome (runTestCases' now code language [VNull]) <> Ok results.
Proof.
  assert (H : outcome (runTestCases' now code language [VNull])
              = Throw (TypeError
                  (lit "Cannot read properties of null (reading 'expected')"))).
  { unfold runTestCases. cbn [outcome map_result].
    now rewrite run_case_null. }
  split; [exact H|]. intros results. rewrite H. discriminate.
Qed.

End TestSimulatorProperties.

(** ** The character analysis is sound for the matcher *)

Lemma all_in_impl (p q : ascii -> bool) (u : text) :
  (forall c, p c = true -> q c = true) -> all_in p u -> all_in q u.
Proof. intros H. apply Forall_impl. exact H. Qed.

Lemma all_in_tl (p : ascii -> bool) (u : text) : all_in p u -> all_in p (tl u).
Proof. destruct u; [auto|]. intros H. now inversion H. Qed.

Lemma caps_in_impl (r r' : regex) (cs : list (nat * text)) :
  (forall n c, group_chars n r c = true -> group_chars n r' c = true) ->
  caps_in r cs -> caps_in r' cs.
Proof.
  intros H. apply Forall_impl. intros [n t]. simpl.
  apply all_in_impl. apply H.
Qed.

Lemma extends_refl (st : mstate) : extends st st [] [].
Proof. constructor; simpl; auto. Qed.

Lemma extends_trans (st st1 st2 : mstate) (u1 u2 : text)
  (cs1 cs2 : list (nat * text)) :
  extends st st1 u1 cs1 -> extends st1 st2 u2 cs2 ->
  extends st st2 (u1 ++ u2) (cs2 ++ cs1).
Proof.
  intros [R1 B1 T1 C1] [R2 B2 T2 C2]. constructor.
  - now rewrite R1, R2, app_assoc.
  - now rewrite B2, B1, rev_app_distr, app_assoc.
  - rewrite T2, T1, length_app. lia.
  - now rewrite C2, C1, app_assoc.
Qed.

Lemma shape_nil (r : regex) :
  may_be_empty r = true -> shape r [] [].
Proof.
  intros H. constructor; try constructor; auto.
  intros v c E. now destruct v.
Qed.

Lemma shape_seq (a b : regex) (u1 u2 : text) (cs1 cs2 : list (nat * text)) :
  shape a u1 cs1 -> shape b u2 cs2 -> shape (Seq a b) (u1 ++ u2) (cs2 ++ cs1).
Proof.
  intros [A1 E1 L1 T1 C1] [A2 E2 L2 T2 C2]. constructor.
  - apply Forall_app. split.
    + eapply all_in_impl; [|exact A1]. simpl. intros c ->. reflexivity.
    + eapply all_in_impl; [|exact A2]. simpl. intros c ->. apply orb_true_r.
  - intros E. apply app_eq_nil in E as [-> ->]. simpl.
    now rewrite E1, E2.
  - intros v c E. simpl. destruct u2 as [|x u2] using rev_ind.
    + rewrite app_nil_r in E. rewrite (E2 eq_refl), (L1 v c E).
      apply orb_true_r.
    + rewrite app_assoc in E. apply app_inj_tail in E as [_ <-].
      now rewrite (L2 u2 x eq_refl).
  - destruct u1 as [|x u1]; simpl.
    + apply all_in_tl. eapply all_in_impl; [|exact A2].
      intros c ->. apply orb_true_r.
    + apply Forall_app. split.
      * eapply all_in_impl; [|exact T1]. simpl. intros c ->. reflexivity.
      * eapply all_in_impl; [|exact A2]. intros c ->. apply orb_true_r.
  - apply Forall_app. split.
    + eapply caps_in_impl; [|exact C2]. simpl. intros n c ->. apply orb_true_r.
    + eapply caps_in_impl; [|exact C1]. simpl. intros n c ->. reflexivity.
Qed.

Lemma shape_alt_l (a b : regex) (u : text) (cs : list (nat * text)) :
  shape a u cs -> shape (Alt a b) u cs.
Proof.
  intros [A E L T C]. constructor; simpl.
  - eapply all_in_impl; [|exact A]. intros c ->. reflexivity.
  - intros H. now rewrite (E H).
  - intros v c H. now rewrite (L v c H).
  - eapply all_in_impl; [|exact T]. intros c ->. reflexivity.
  - eapply caps_in_impl; [|exact C]. simpl. intros n c ->. reflexivity.
Qed.

Lemma shape_alt_r (a b : regex) (u : text) (cs : list (nat * text)) :
  shape b u cs -> shape (Alt a b) u cs.
Proof.
  intros [A E L T C]. constructor; simpl.
  - eapply all_in_impl; [|exact A]. intros c ->. apply orb_true_r.
  - intros H. rewrite (E H). apply orb_true_r.
  - intros v c H. rewrite (L v c H). apply orb_true_r.
  - eapply all_in_impl; [|exact T]. intros c ->. apply orb_true_r.
  - eapply caps_in_impl; [|exact C]. simpl. intros n c ->. apply orb_true_r.
Qed.

(** One more iteration in front of a starred match; the same for the greedy
    and the lazy star, whose sets coincide. *)
Lemma shape_iter (a s : regex) (u1 u2 : text) (cs1 cs2 : list (nat * text)) :
  (forall c, all_chars s c = all_chars a c) ->
  (forall c, last_chars s c = last_chars a c) ->
  (forall c, tail_chars s c = all_chars a c) ->
  (forall n c, group_chars n s c = group_chars n a c) ->
  may_be_empty s = true ->
  shape a u1 cs1 -> shape s u2 cs2 -> shape s (u1 ++ u2) (cs2 ++ cs1).
Proof.
  intros Ha Hl Ht Hg He [A1 E1 L1 T1 C1] [A2 E2 L2 T2 C2]. constructor.
  - apply Forall_app. split; [|exact A2].
    eapply all_in_impl; [|exact A1]. intros c. now rewrite Ha.
  - intros _. exact He.
  - intros v c E. destruct u2 as [|x u2] using rev_ind.
    + rewrite app_nil_r in E. rewrite Hl. exact (L1 v c E).
    + rewrite app_assoc in E. apply app_inj_tail in E as [_ <-].
      exact (L2 u2 x eq_refl).
  - destruct u1 as [|x u1]; simpl; [exact T2|].
    apply Forall_app. split.
    + apply all_in_tl in A1. simpl in A1.
      inversion A1; subst; [constructor|].
      eapply all_in_impl; [|exact A1]. intros c. now rewrite Ht.
    + eapply all_in_impl; [|exact A2]. intros c. now rewrite Ha, Ht.
  - apply Forall_app. split; [exact C2|].
    eapply caps_in_impl; [|exact C1]. intros n c. now rewrite Hg.
Qed.

Lemma consumed_extends (st st' : mstate) (u : text) (cs : list (nat * text)) :
  extends st st' u cs -> consumed st st' = u.
Proof.
  intros [R _ T _]. unfold consumed. rewrite T, R.
  replace (taken st + length u - taken st) with (length u + 0) by lia.
  rewrite firstn_app_2. simpl. apply app_nil_r.
Qed.

Lemma sound_single (r : regex) (p : ascii -> bool) :
  (forall c, p c = true -> all_chars r c = true) ->
  (forall c, p c = true -> last_chars r c = true) ->
  forall (st : mstate) (k : mstate -> option mstate) res x xs,
    rest st = x :: xs -> p x = true ->
    k (step_char x xs st) = Some res ->
    exists st' u cs, extends st st' u cs /\ shape r u cs /\ k st' = Some res.
Proof.
  intros Ha Hl st k res x xs Hrest Hp Hk.
  exists (step_char x xs st), [x], []. split; [|split; [|exact Hk]].
  - constructor; simpl; auto. lia.
  - constructor.
    + constructor; [now apply Ha | constructor].
    + discriminate.
    + intros v c E. destruct v as [|y v].
      * injection E as <-. now apply Hl.
      * injection E as _ E. now destruct v.
    + constructor.
    + constructor.
Qed.

Lemma sound_star (a : regex) :
  sound_at a -> sound_at (Star a).
Proof.
  intros IH st k res. simpl. generalize (length (rest st)) as n.
  intros n. revert st. induction n as [|n IHn]; intros st H.
  - exists st, [], []. split; [apply extends_refl|]. split; [|exact H].
    now apply shape_nil.
  - destruct (exec a st _) as [res'|] eqn:E.
    + injection H as ->. apply IH in E as [st1 [u1 [cs1 [X1 [S1 K1]]]]].
      destruct (progressed st st1); [|discriminate].
      apply IHn in K1 as [st2 [u2 [cs2 [X2 [S2 K2]]]]].
      exists st2, (u1 ++ u2), (cs2 ++ cs1).
      split; [eapply extends_trans; eassumption|]. split; [|exact K2].
      apply (shape_iter a (Star a)); auto.
    + exists st, [], []. split; [apply extends_refl|]. split; [|exact H].
      now apply shape_nil.
Qed.

Lemma sound_lazy (a : regex) :
  sound_at a -> sound_at (Lazy a).
Proof.
  intros IH st k res. simpl. generalize (length (rest st)) as n.
  intros n. revert st. induction n as [|n IHn]; intros st H.
  - destruct (k st) eqn:K; [|discriminate].
    exists st, [], []. split; [apply extends_refl|]. split; [|congruence].
    now apply shape_nil.
  - destruct (k st) eqn:K.
    + exists st, [], []. split; [apply extends_refl|]. split; [|congruence].
      now apply shape_nil.
    + apply IH in H as [st1 [u1 [cs1 [X1 [S1 K1]]]]].
      destruct (progressed st st1); [|discriminate].
      apply IHn in K1 as [st2 [u2 [cs2 [X2 [S2 K2]]]]].
      exists st2, (u1 ++ u2), (cs2 ++ cs1).
      split; [eapply extends_trans; eassumption|]. split; [|exact K2].
      apply (shape_iter a (Lazy a)); auto.
Qed.

Lemma sound_group (n : nat) (a : regex) :
  sound_at a -> sound_at (Grp n a).
Proof.
  intros IH st k res H. simpl in H.
  apply IH in H as [st1 [u [cs [X [S K]]]]].
  exists (record_group n st st1), u, ((n, u) :: cs).
  split; [|split; [|exact K]].
  - destruct X as [R B T C]. constructor; simpl; auto.
    rewrite (consumed_extends st st1 u cs (Extends _ _ _ _ R B T C)).
    now rewrite C.
  - destruct S as [A E L T C]. constructor; simpl; auto.
    constructor.
    + simpl. eapply all_in_impl; [|exact A].
      intros c ->. now rewrite Nat.eqb_refl.
    + eapply caps_in_impl; [|exact C]. simpl. intros m c ->.
      apply orb_true_r.
Qed.

(** Whatever the matcher accepts has the shape computed from the pattern. *)
Theorem exec_sound (r : regex) : sound_at r.
Proof.
  induction r as [|c|cl|a IHa b IHb|a IHa b IHb|a IHa|a IHa|n a IHa| | |].
  - intros st k res H. exists st, [], [].
    split; [apply extends_refl|]. split; [now apply shape_nil | exact H].
  - intros st k res H. simpl in H.
    destruct (rest st) as [|x xs] eqn:R; [discriminate|].
    destruct (Ascii.eqb x c) eqn:E; [|discriminate].
    apply (sound_single (Chr c) (fun y => Ascii.eqb y c)) with x xs; auto.
  - intros st k res H. simpl in H.
    destruct (rest st) as [|x xs] eqn:R; [discriminate|].
    destruct (in_class cl x) eqn:E; [|discriminate].
    apply (sound_single (Cls cl) (in_class cl)) with x xs; auto.
  - intros st k res H. simpl in H.
    apply IHa in H as [st1 [u1 [cs1 [X1 [S1 K1]]]]].
    apply IHb in K1 as [st2 [u2 [cs2 [X2 [S2 K2]]]]].
    exists st2, (u1 ++ u2), (cs2 ++ cs1).
    split; [eapply extends_trans; eassumption|].
    split; [now apply shape_seq | exact K2].
  - intros st k res H. simpl in H.
    destruct (exec a st k) as [res'|] eqn:E.
    + injection H as ->. apply IHa in E as [st1 [u [cs [X [S K]]]]].
      exists st1, u, cs. split; [exact X|]. split; [now apply shape_alt_l | exact K].
    + apply IHb in H as [st1 [u [cs [X [S K]]]]].
      exists st1, u, cs. split; [exact X|]. split; [now apply shape_alt_r | exact K].
  - now apply sound_star.
  - now apply sound_lazy.
  - now apply sound_group.
  - intros st k res H. simpl in H. destruct (before st); [|discriminate].
    exists st, [], []. split; [apply extends_refl|].
    split; [now apply shape_nil | exact H].
  - intros st k res H. simpl in H.
    exists st, [], []. split; [apply extends_refl|].
    split; [now apply shape_nil|].
    destruct (rest st) as [|x xs]; [exact H|].
    destruct (is_line_terminator x); [exact H | discriminate].
  - intros st k res H. simpl in H.
    destruct (xorb (word_before st) (word_after st)); [|discriminate].
    exists st, [], []. split; [apply extends_refl|].
    split; [now apply shape_nil | exact H].
Qed.

(** A successful attempt takes a prefix of the text, of the computed shape. *)
Lemma match_here_sound (r : regex) (bef s : text) (m : rmatch) :
  match_here r bef s = Some m ->
  exists u post,
    s = u ++ post /\ mlen m = length u /\ shape r u (mcaps m).
Proof.
  unfold match_here. intros H.
  destruct (exec r (MState bef s 0 []) Some) as [st'|] eqn:E; [|discriminate].
  injection H as <-. apply exec_sound in E as [st1 [u [cs [X [S K]]]]].
  injection K as ->. destruct X as [R B T C]. simpl in R, B, T, C.
  exists u, (rest st'). split; [exact R|]. split; [exact T|].
  cbn [mcaps]. rewrite C, app_nil_r. exact S.
Qed.

(** ** Every global replacement is a scan *)

Lemma firstn_length_app {A : Type} (l l' : list A) :
  firstn (length l) (l ++ l') = l.
Proof. induction l as [|x l IH]; simpl; [reflexivity | now rewrite IH]. Qed.

Lemma skipn_length_app {A : Type} (l l' : list A) :
  skipn (length l) (l ++ l') = l'.
Proof. induction l as [|x l IH]; simpl; [reflexivity | exact IH]. Qed.

Lemma replace_scan_skip (r : regex) (f : replacer) (u bef s : text) :
  replace_scan r f (length u) bef (u ++ s)
  = replace_scan r f 0 (rev u ++ bef) s.
Proof.
  revert bef. induction u as [|c u IH]; intros bef; [reflexivity|].
  cbn [length app replace_scan]. rewrite IH. simpl rev.
  now rewrite <- app_assoc.
Qed.

Lemma match_never_empty (r : regex) (bef s : text) (m : rmatch) :
  may_be_empty r = false -> match_here r bef s = Some m ->
  exists c u post, s = (c :: u) ++ post /\ mlen m = length (c :: u).
Proof.
  intros Hne H. apply match_here_sound in H as [u [post [-> [Hlen S]]]].
  destruct u as [|c u].
  - rewrite (shape_empty _ _ _ S eq_refl) in Hne. discriminate.
  - now exists c, u, post.
Qed.

Lemma replace_scan_scanned (r : regex) (f : replacer) :
  may_be_empty r = false ->
  forall s bef, scanned r f bef s (replace_scan r f 0 bef s).
Proof.
  intros Hne s. remember (length s) as n eqn:Hn.
  revert s Hn. induction n as [n IH] using lt_wf_ind. intros s Hn bef.
  destruct s as [|c s].
  - cbn [replace_scan]. destruct (match_here r bef []) as [m|] eqn:E.
    + apply (match_never_empty r bef [] m Hne) in E as [x [u [post [E _]]]].
      discriminate.
    + constructor.
  - cbn [replace_scan]. destruct (match_here r bef (c :: s)) as [m|] eqn:E.
    + destruct (match_never_empty r bef (c :: s) m Hne E)
        as [x [u [post [Es Hlen]]]].
      injection Es as <- ->. rewrite Hlen. cbn [length].
      rewrite replace_scan_skip.
      change (firstn (S (length u)) (c :: u ++ post))
        with (firstn (length (c :: u)) ((c :: u) ++ post)).
      change (skipn (S (length u)) (c :: u ++ post))
        with (skipn (length (c :: u)) ((c :: u) ++ post)).
      rewrite firstn_length_app, skipn_length_app.
      replace (rev u ++ c :: bef) with (rev (c :: u) ++ bef)
        by (simpl; now rewrite <- app_assoc).
      apply (scanned_put r f bef (c :: u) post _ m); auto; [discriminate|].
      apply (IH (length post)); [|reflexivity].
      subst n. simpl. rewrite length_app. lia.
    + constructor; [exact E|].
      apply (IH (length s)); [subst n; simpl; lia | reflexivity].
Qed.

Lemma app_eq_split (a x u y : text) :
  a ++ x = u ++ y -> length u <= length a ->
  exists a', a = u ++ a' /\ y = a' ++ x.
Proof.
  revert a. induction u as [|c u IH]; intros a E Hlen.
  - exists a. now split.
  - destruct a as [|c' a]; [simpl in Hlen; lia|].
    injection E as -> E. simpl in Hlen.
    destruct (IH a E ltac:(lia)) as [a' [-> ->]]. now exists a'.
Qed.

(** If an occurrence of [w] is in the result, it was copied from the text,
    from a place where the pattern did not match. *)
Lemma scanned_no_new (r : regex) (f : replacer) (w : text) :
  w <> [] ->
  (forall bef u s m,
      match_here r bef (u ++ s) = Some m -> mlen m = length u ->
      apart w (f u (mcaps m) (rev bef) s)) ->
  forall bef s o,
    scanned r f bef s o -> contains w o ->
    exists pre post,
      s = pre ++ w ++ post /\
      match_here r (rev pre ++ bef) (w ++ post) = None.
Proof.
  intros Hw Hput.
  assert (Hrun : forall x p bef s o,
             w = p ++ x -> p <> [] -> scanned r f bef s o ->
             (exists o', o = x ++ o') -> exists s', s = x ++ s').
  { induction x as [|d x IHx]; intros p bef s o Ew Hp Hs [o' Eo].
    - now exists s.
    - destruct Hs as [bef|bef c s1 o1 Hm Hs1|bef u s1 o1 m Hu Hm Hl Hs1].
      + discriminate.
      + injection Eo as -> ->.
        destruct (IHx (p ++ [d]) (d :: bef) s1 (x ++ o')) as [s' ->].
        * now rewrite <- app_assoc.
        * now destruct p.
        * exact Hs1.
        * now exists o'.
        * now exists s'.
      + exfalso. specialize (Hput _ _ _ _ Hm Hl).
        destruct (Hput [] o' p o1) as [H|H].
        * cbn [app]. rewrite Eo, Ew, <- app_assoc. reflexivity.
        * rewrite Ew, length_app in H. simpl in H. lia.
        * destruct p; [congruence | simpl in H; lia]. }
  intros bef s o Hs. induction Hs as [bef|bef c s o Hm Hs IH|bef u s o m Hu Hm Hl Hs IH];
    intros [a [b E]].
  - destruct a; [destruct w; [congruence | discriminate] | discriminate].
  - destruct a as [|c' a].
    + destruct w as [|c' w1]; [congruence|]. simpl in E. injection E as <- ->.
      destruct (Hrun w1 [c] (c :: bef) s (w1 ++ b)) as [s' ->]; auto.
      * discriminate.
      * now exists b.
      * exists [], s'. split; [reflexivity | exact Hm].
    + injection E as <- ->.
      destruct IH as [pre [post [-> Hnone]]]; [now exists a, b|].
      exists (c :: pre), post. split; [reflexivity|].
      simpl rev. now rewrite <- app_assoc.
  - specialize (Hput _ _ _ _ Hm Hl).
    destruct (Hput a b [] o) as [H|H].
    + simpl. now rewrite E.
    + destruct w; [congruence | simpl in H; lia].
    + simpl in H.
      destruct (app_eq_split a (w ++ b) _ o (eq_sym E) H) as [a' [-> ->]].
      destruct IH as [pre [post [-> Hnone]]]; [now exists a', b|].
      exists (u ++ pre), post. split; [now rewrite <- app_assoc|].
      now rewrite rev_app_distr, <- app_assoc.
Qed.

(** An occurrence of [w] survives the replacement when no match starts
    inside it and no match that starts before it reaches into it. *)
Lemma scanned_keeps (r : regex) (f : replacer) (w : text) :
  (forall p x bef b,
      w = p ++ x -> x <> [] -> match_here r bef (x ++ b) = None) ->
  (forall bef a b m,
      a <> [] -> match_here r bef (a ++ w ++ b) = Some m ->
      mlen m <= length a) ->
  forall bef s o,
    scanned r f bef s o -> contains w s -> contains w o.
Proof.
  intros Hin Hbefore.
  assert (Hrun : forall x p bef b o,
             w = p ++ x -> scanned r f bef (x ++ b) o ->
             exists o', o = x ++ o').
  { induction x as [|d x IHx]; intros p bef b o Ew Hs.
    - now exists o.
    - remember ((d :: x) ++ b) as s eqn:Es.
      destruct Hs as [bef|bef c s1 o1 Hm Hs1|bef u s1 o1 m Hu Hm Hl Hs1].
      + discriminate.
      + injection Es as -> ->.
        destruct (IHx (p ++ [d]) (d :: bef) b o1) as [o' ->];
          [now rewrite <- app_assoc | exact Hs1 | now exists o'].
      + rewrite Es in Hm.
        rewrite (Hin p (d :: x) bef b Ew) in Hm; [discriminate | discriminate]. }
  intros bef s o Hs.
  destruct w as [|w0 w1] eqn:Ew0; [intros _; now exists [], o|].
  rewrite <- Ew0 in *.
  induction Hs as [bef|bef c s o Hm Hs IH|bef u s o m Hu Hm Hl Hs IH];
    intros [a [b E]].
  - rewrite Ew0 in E. destruct a; discriminate.
  - destruct a as [|c' a].
    + simpl in E.
      destruct (Hrun w [] bef b (c :: o) eq_refl) as [o' ->].
      * rewrite <- E. now constructor.
      * now exists [], o'.
    + injection E as <- ->. apply contains_cons, IH. now exists a, b.
  - destruct (Nat.le_gt_cases (length u) (length a)) as [Hle|Hgt].
    + destruct (app_eq_split a (w ++ b) u s (eq_sym E) Hle) as [a' [-> ->]].
      apply contains_app_l, IH. now exists a', b.
    + exfalso. rewrite E in Hm. destruct a as [|c a].
      * simpl in Hm. rewrite (Hin [] w bef b eq_refl) in Hm;
          [discriminate | rewrite Ew0; discriminate].
      * apply Hbefore in Hm; [lia | discriminate].
Qed.

(** ** Deciding that two texts are apart *)

Lemma agree_app (x y x' y' : text) : x ++ y = x' ++ y' -> agree x x' = true.
Proof.
  revert x'. induction x as [|a x IH]; intros x' E; [reflexivity|].
  destruct x' as [|b x']; [reflexivity|].
  injection E as -> E. simpl. rewrite Ascii.eqb_refl. exact (IH x' E).
Qed.

Lemma skipn_app_le {A : Type} (n : nat) (l l' : list A) :
  n <= length l -> skipn n (l ++ l') = skipn n l ++ l'.
Proof.
  intros H. rewrite skipn_app.
  replace (n - length l) with 0 by lia. reflexivity.
Qed.

Lemma apartb_sound (w m : text) : apartb w m = true -> apart w m.
Proof.
  unfold apartb. intros H. apply andb_prop in H as [H1 H2].
  rewrite forallb_forall in H1, H2.
  intros a b c d E.
  destruct (Nat.le_gt_cases (length a + length w) (length c)) as [|Hc];
    [now left|].
  destruct (Nat.le_gt_cases (length c + length m) (length a)) as [|Ha];
    [now right|].
  exfalso. destruct (Nat.le_gt_cases (length a) (length c)) as [Hac|Hac].
  - assert (Hd : In (length c - length a) (seq 0 (length w)))
      by (apply in_seq; lia).
    apply H1 in Hd. apply negb_true_iff in Hd.
    assert (E' : skipn (length c) (a ++ w ++ b) = skipn (length c) (c ++ m ++ d))
      by now rewrite E.
    rewrite skipn_length_app in E'.
    rewrite skipn_app, (skipn_all2 a) in E' by lia. simpl in E'.
    rewrite skipn_app_le in E' by lia.
    apply agree_app in E'. congruence.
  - assert (He : In (length a - length c) (seq 1 (length m - 1)))
      by (apply in_seq; lia).
    apply H2 in He. apply negb_true_iff in He.
    assert (E' : skipn (length a) (a ++ w ++ b) = skipn (length a) (c ++ m ++ d))
      by now rewrite E.
    rewrite skipn_length_app in E'.
    rewrite skipn_app, (skipn_all2 c) in E' by lia. simpl in E'.
    rewrite skipn_app_le in E' by lia.
    apply agree_app in E'. congruence.
Qed.

Lemma in_middle (w : text) (a b c t d : text) (n : nat) :
  a ++ w ++ b = c ++ t ++ d ->
  length a <= n -> n < length a + length w ->
  length c <= n -> n < length c + length t ->
  exists x, nth_error w (n - length a) = Some x /\
            nth_error t (n - length c) = Some x.
Proof.
  intros E Ha1 Ha2 Hc1 Hc2.
  assert (H1 : nth_error (a ++ w ++ b) n = nth_error w (n - length a)).
  { rewrite nth_error_app2 by lia. rewrite nth_error_app1 by lia. reflexivity. }
  assert (H2 : nth_error (c ++ t ++ d) n = nth_error t (n - length c)).
  { rewrite nth_error_app2 by lia. rewrite nth_error_app1 by lia. reflexivity. }
  rewrite E, H2 in H1.
  destruct (nth_error t (n - length c)) as [x|] eqn:Ex.
  - exists x. now split.
  - apply nth_error_None in Ex. lia.
Qed.

(** A criterion by characters, for replacements that hold a capture: the
    first and the last character of [m] do not occur in [w], and some
    character of [w] does not occur in [m]. *)
Lemma apart_by_chars (w m u : text) (x y z : ascii) :
  m = x :: u -> (exists v, m = v ++ [y]) ->
  ~ In x w -> ~ In y w -> In z w -> ~ In z m ->
  apart w m.
Proof.
  intros Em [v Ev] Hx Hy Hz Hzm a b c d E.
  destruct (Nat.le_gt_cases (length a + length w) (length c)) as [|Hc];
    [now left|].
  destruct (Nat.le_gt_cases (length c + length m) (length a)) as [|Ha];
    [now right|].
  exfalso. destruct (Nat.le_gt_cases (length a) (length c)) as [Hac|Hac].
  - (* the first character of m lies in w *)
    destruct (in_middle w a b c m d (length c) E) as [x' [H1 H2]]; try lia.
    { rewrite Em. simpl. lia. }
    rewrite Nat.sub_diag, Em in H2. injection H2 as <-.
    apply Hx. eapply nth_error_In; eassumption.
  - destruct (Nat.le_gt_cases (length c + length m) (length a + length w))
      as [Hend|Hend].
    + (* the last character of m lies in w *)
      destruct (in_middle w a b c m d (length c + length m - 1) E)
        as [x' [H1 H2]]; try lia.
      assert (Hl : length m = length v + 1) by (rewrite Ev, length_app; simpl; lia).
      rewrite Ev in H2 at 1.
      rewrite nth_error_app2 in H2 by lia.
      replace (length c + length m - 1 - length c - length v) with 0 in H2 by lia.
      injection H2 as <-. apply Hy. eapply nth_error_In; eassumption.
    + (* w lies inside m *)
      apply In_nth_error in Hz as [i Hi].
      assert (Hi' : i < length w) by (apply nth_error_Some; congruence).
      destruct (in_middle w a b c m d (length a + i) E) as [x' [H1 H2]];
        try lia.
      replace (length a + i - length a) with i in H1 by lia.
      rewrite Hi in H1. injection H1 as <-.
      apply Hzm. eapply nth_error_In; eassumption.
Qed.

(** ** Matches that start before a word *)

Lemma no_reach_by_tail (r : regex) (c : ascii) (w1 : text) :
  tail_chars r c = false ->
  forall bef a b m,
    a <> [] -> match_here r bef (a ++ (c :: w1) ++ b) = Some m ->
    mlen m <= length a.
Proof.
  intros Ht bef a b m Ha H.
  apply match_here_sound in H as [u [post [E [Hlen S]]]]. rewrite Hlen.
  destruct (Nat.le_gt_cases (length u) (length a)) as [|Hgt]; [assumption|].
  exfalso.
  destruct (app_eq_split u post a ((c :: w1) ++ b) (eq_sym E) ltac:(lia))
    as [u2 [-> E2]].
  destruct u2 as [|x u2]; [rewrite app_nil_r in Hgt; lia|].
  injection E2 as <- _.
  pose proof (shape_tail _ _ _ S) as T.
  destruct a as [|y a]; [congruence|]. simpl in T.
  apply Forall_app in T as [_ T]. inversion T; subst. congruence.
Qed.

Lemma no_reach_by_last (r : regex) (w : text) :
  forallb (fun c => negb (last_chars r c)) w = true ->
  forallb (all_chars r) w = false ->
  forall bef a b m,
    a <> [] -> match_here r bef (a ++ w ++ b) = Some m ->
    mlen m <= length a.
Proof.
  intros Hl Ha bef a b m _ H.
  apply match_here_sound in H as [u [post [E [Hlen S]]]]. rewrite Hlen.
  destruct (Nat.le_gt_cases (length u) (length a)) as [|Hgt]; [assumption|].
  exfalso.
  destruct (app_eq_split u post a (w ++ b) (eq_sym E) ltac:(lia))
    as [u2 [-> E2]].
  rewrite length_app in Hgt.
  destruct (Nat.le_gt_cases (length u2) (length w)) as [Hle|Hlt].
  - destruct (app_eq_split w b u2 post E2 Hle) as [w2 [-> _]].
    destruct u2 as [|x u2] using rev_ind; [simpl in Hgt; lia|].
    clear IHu2. rewrite app_assoc in S.
    pose proof (shape_last _ _ _ S (a ++ u2) x eq_refl) as L.
    rewrite forallb_forall in Hl.
    assert (Hin : In x ((u2 ++ [x]) ++ w2))
      by (apply in_or_app; left; apply in_or_app; right; now left).
    apply Hl in Hin. rewrite L in Hin. discriminate.
  - destruct (app_eq_split u2 post w b (eq_sym E2) ltac:(lia)) as [u3 [-> _]].
    pose proof (shape_all _ _ _ S) as A.
    apply Forall_app in A as [_ A]. apply Forall_app in A as [A _].
    assert (forallb (all_chars r) w = true)
      by (apply forallb_forall; intros x Hx;
          unfold all_in in A; rewrite Forall_forall in A; now apply A).
    congruence.
Qed.

(** ** Replacing the first occurrence of a text *)

Lemma replace_first_from_spec (pat tmpl T : text) :
  (forall pre post, expand 0 pat pre post [] tmpl = T) ->
  forall s bef,
    (includes pat s = false /\ replace_first_from pat tmpl bef s = s) \/
    (exists a b, s = a ++ pat ++ b /\
                 replace_first_from pat tmpl bef s = a ++ T ++ b).
Proof.
  intros HT. induction s as [|c s IH]; intros bef.
  - cbn [replace_first_from includes].
    destruct (starts_with pat []) eqn:E.
    + right. apply starts_with_spec in E as [t Et]. exists [], [].
      symmetry in Et. apply app_eq_nil in Et as [Ep _].
      rewrite HT. subst pat. split; reflexivity.
    + left. now split.
  - cbn [replace_first_from includes].
    destruct (starts_with pat (c :: s)) eqn:E.
    + right. apply starts_with_spec in E as [t Et]. exists [], t.
      split; [exact Et|]. rewrite HT, Et, skipn_length_app. reflexivity.
    + destruct (IH (c :: bef)) as [[Hn Hs]|[a [b [Hs Hr]]]].
      * left. split; [exact Hn | now rewrite Hs].
      * right. exists (c :: a), b. split; [now rewrite Hs | now rewrite Hr].
Qed.

Lemma insert_keeps (w pat cm a b : text) :
  jointb w pat = true ->
  contains w (a ++ pat ++ b) -> contains w (a ++ pat ++ cm ++ b).
Proof.
  intros Hj [a1 [b1 E]]. unfold jointb in Hj. rewrite forallb_forall in Hj.
  rewrite app_assoc in E. rewrite (app_assoc a pat).
  destruct (Nat.le_gt_cases (length (a ++ pat)) (length a1)) as [H1|H1].
  - destruct (app_eq_split a1 (w ++ b1) (a ++ pat) b (eq_sym E) H1)
      as [l [-> ->]].
    exists ((a ++ pat) ++ cm ++ l), b1. now rewrite <- !app_assoc.
  - destruct (Nat.le_gt_cases (length a1 + length w) (length (a ++ pat)))
      as [H2|H2].
    + rewrite app_assoc in E.
      assert (H2' : length (a1 ++ w) <= length (a ++ pat))
        by (rewrite length_app; lia).
      destruct (app_eq_split (a ++ pat) b (a1 ++ w) b1 E H2') as [l [-> _]].
      exists a1, (l ++ cm ++ b). now rewrite <- !app_assoc.
    + exfalso.
      assert (Hi : In (length (a ++ pat) - length a1) (seq 1 (length w - 1)))
        by (apply in_seq; lia).
      apply Hj in Hi. apply negb_true_iff in Hi.
      assert (E' : firstn (length (a ++ pat)) ((a ++ pat) ++ b)
                   = firstn (length (a ++ pat)) (a1 ++ w ++ b1))
        by now rewrite E.
      rewrite firstn_length_app, firstn_app in E'.
      rewrite (@firstn_all2 _ _ a1) in E' by lia.
      rewrite firstn_app in E'.
      replace (length (a ++ pat) - length a1 - length w) with 0 in E' by lia.
      rewrite firstn_O, app_nil_r in E'.
      assert (R : rev pat ++ rev a
                  = rev (firstn (length (a ++ pat) - length a1) w) ++ rev a1)
        by (rewrite <- (rev_app_distr a pat), <- (rev_app_distr a1);
            f_equal; exact E').
      symmetry in R. apply agree_app in R. congruence.
Qed.

Lemma insert_no_new (w pat cm a b : text) :
  apart w cm ->
  ~ contains w (a ++ pat ++ b) -> ~ contains w (a ++ pat ++ cm ++ b).
Proof.
  intros Hap Hn [a1 [b1 E]]. apply Hn.
  rewrite (app_assoc a pat (cm ++ b)) in E. rewrite (app_assoc a pat b).
  destruct (Hap a1 b1 (a ++ pat) b (eq_sym E)) as [H|H].
  - rewrite <- length_app in H.
    assert (E1 : (a ++ pat) ++ cm ++ b = (a1 ++ w) ++ b1)
      by (rewrite <- (app_assoc a1 w b1); exact E).
    destruct (app_eq_split (a ++ pat) (cm ++ b) (a1 ++ w) b1 E1 H)
      as [l [El _]].
    exists a1, (l ++ b). rewrite El, <- !app_assoc. reflexivity.
  - rewrite <- length_app in H.
    assert (E1 : a1 ++ w ++ b1 = ((a ++ pat) ++ cm) ++ b)
      by (rewrite <- (app_assoc (a ++ pat) cm b); exact (eq_sym E)).
    destruct (app_eq_split a1 (w ++ b1) ((a ++ pat) ++ cm) b E1 H)
      as [l [_ ->]].
    exists ((a ++ pat) ++ l), b1. now rewrite <- !app_assoc.
Qed.

(** ** One fix rule at a time *)

Lemma search_finds (r : regex) (w : text) :
  (forall bef b, match_here r bef (w ++ b) <> None) ->
  forall s bef, contains w s -> search r bef s <> None.
Proof.
  intros Hm. induction s as [|c s IH]; intros bef [a [b E]].
  - destruct a; [|discriminate]. simpl in E. cbn [search].
    rewrite E. destruct (match_here r bef (w ++ b)) eqn:M; [discriminate|].
    now apply Hm in M.
  - cbn [search]. destruct (match_here r bef (c :: s)) eqn:M; [discriminate|].
    destruct a as [|c' a].
    + simpl in E. rewrite E in M. now apply Hm in M.
    + injection E as <- ->.
      specialize (IH (c :: bef) (ex_intro _ a (ex_intro _ b eq_refl))).
      destruct (search r (c :: bef) (a ++ w ++ b)) as [[i m]|];
        [discriminate | congruence].
Qed.

Lemma scanned_puts (r : regex) (f : replacer) (w R : text) :
  w <> [] ->
  (forall bef b, match_here r bef (w ++ b) <> None) ->
  (forall u cs pre post, f u cs pre post = R) ->
  forall bef s o, scanned r f bef s o -> contains w s -> contains R o.
Proof.
  intros Hw Hm Hf bef s o Hs.
  induction Hs as [bef|bef c s o Hn Hs IH|bef u s o m Hu Hmu Hl Hs IH];
    intros [a [b E]].
  - destruct a; [destruct w; [congruence|discriminate] | discriminate].
  - destruct a as [|c' a].
    + simpl in E. rewrite E in Hn. now apply Hm in Hn.
    + injection E as <- ->. apply contains_cons, IH. now exists a, b.
  - rewrite Hf. apply contains_app_r, contains_refl.
Qed.

(** A fresh pattern object is tested from the start of the text. *)
Lemma regexp_test_fresh (re : regexp) (s : text) :
  lastIndex re = 0 ->
  fst (regexp_test re s) = test (source re) s /\
  source (snd (regexp_test re s)) = source re.
Proof.
  intros H0. unfold regexp_test, test. rewrite H0. simpl.
  destruct (search (source re) [] s) as [[i m]|]; simpl; auto.
Qed.

Lemma apply_rule_unfold (s : text) (rule : fix_rule) :
  fresh rule ->
  apply_rule s rule =
  if test (source (pattern rule)) s then
    let s1 := replace_all (source (pattern rule)) (rule_replacer rule) s in
    if negb (includes (comment rule) s1)
    then replace_first (replacement rule)
           (replacement rule ++ rule_note rule) s1
    else s1
  else s.
Proof.
  intros H0. unfold apply_rule.
  destruct (regexp_test_fresh (pattern rule) s H0) as [Ht Hs].
  destruct (regexp_test (pattern rule) s) as [found pattern1].
  simpl in Ht, Hs. rewrite Ht. unfold regexp_replace. rewrite Hs.
  reflexivity.
Qed.

Lemma explanation_step (rule : fix_rule) (s1 : text) :
  plain_note rule ->
  let s2 := replace_first (replacement rule)
              (replacement rule ++ rule_note rule) s1 in
  s2 = s1 \/
  exists a b, s1 = a ++ replacement rule ++ b /\
              s2 = a ++ replacement rule ++ rule_note rule ++ b.
Proof.
  intros Hplain. cbv zeta. unfold replace_first.
  destruct (replace_first_from_spec (replacement rule)
              (replacement rule ++ rule_note rule)
              (replacement rule ++ rule_note rule)
              (Hplain (replacement rule)) s1 [])
    as [[_ H]|[a [b [Hs H]]]].
  - now left.
  - right. exists a, b. split; [exact Hs|]. now rewrite H, <- app_assoc.
Qed.

Lemma replace_first_empty (tmpl s : text) :
  replace_first [] tmpl s = expand 0 [] [] s [] tmpl ++ s.
Proof. destruct s; reflexivity. Qed.

(** A rule keeps an occurrence of [w]. *)
Lemma apply_rule_keeps (rule : fix_rule) (w : text) :
  fresh rule ->
  may_be_empty (source (pattern rule)) = false ->
  (forall p x bef b,
      w = p ++ x -> x <> [] ->
      match_here (source (pattern rule)) bef (x ++ b) = None) ->
  (forall bef a b m,
      a <> [] ->
      match_here (source (pattern rule)) bef (a ++ w ++ b) = Some m ->
      mlen m <= length a) ->
  plain_note rule ->
  jointb w (replacement rule) = true \/ replacement rule = [] ->
  forall s, contains w s -> contains w (apply_rule s rule).
Proof.
  intros Hfresh Hne Hin Hbefore Hplain Hjoint s Hs.
  rewrite apply_rule_unfold by exact Hfresh.
  destruct (test (source (pattern rule)) s); [|exact Hs]. cbv zeta.
  assert (H1 : contains w
                 (replace_all (source (pattern rule)) (rule_replacer rule) s)).
  { eapply scanned_keeps; eauto. apply replace_scan_scanned. exact Hne. }
  set (s1 := replace_all (source (pattern rule)) (rule_replacer rule) s) in *.
  destruct (negb (includes (comment rule) s1)); [|exact H1].
  destruct Hjoint as [Hj|Hnil].
  - destruct (explanation_step rule s1 Hplain) as [->|[a [b [E ->]]]];
      [exact H1|].
    apply insert_keeps; [exact Hj|]. now rewrite <- E.
  - rewrite Hnil, replace_first_empty. apply contains_app_l. exact H1.
Qed.

(** A rule does not bring about an occurrence of [w]. *)
Lemma apply_rule_no_new (rule : fix_rule) (w : text) :
  fresh rule ->
  may_be_empty (source (pattern rule)) = false ->
  w <> [] ->
  (forall bef u s m,
      match_here (source (pattern rule)) bef (u ++ s) = Some m ->
      mlen m = length u ->
      apart w (rule_replacer rule u (mcaps m) (rev bef) s)) ->
  plain_note rule ->
  apart w (rule_note rule) ->
  forall s,
    (~ contains w s \/
     forall bef b, match_here (source (pattern rule)) bef (w ++ b) <> None) ->
    ~ contains w (apply_rule s rule).
Proof.
  intros Hfresh Hne Hw Hput Hplain Hnote s Hs.
  rewrite apply_rule_unfold by exact Hfresh.
  destruct (test (source (pattern rule)) s) eqn:Ht.
  - cbv zeta.
    assert (H1 : ~ contains w
                   (replace_all (source (pattern rule)) (rule_replacer rule) s)).
    { intros H.
      destruct (scanned_no_new (source (pattern rule)) (rule_replacer rule) w
                  Hw Hput
                  [] s _ (replace_scan_scanned _ _ Hne s []) H)
        as [pre [post [E Hnone]]].
      destruct Hs as [Hs|Hs].
      - apply Hs. now exists pre, post.
      - now apply Hs in Hnone. }
    set (s1 := replace_all (source (pattern rule)) (rule_replacer rule) s) in *.
    destruct (negb (includes (comment rule) s1)); [|exact H1].
    destruct (explanation_step rule s1 Hplain) as [->|[a [b [E ->]]]];
      [exact H1|].
    apply insert_no_new; [exact Hnote|]. now rewrite <- E.
  - destruct Hs as [Hs|Hs]; [exact Hs|].
    intros Hc. unfold test in Ht.
    pose proof (search_finds (source (pattern rule)) w Hs s [] Hc).
    destruct (search (source (pattern rule)) [] s); [discriminate | congruence].
Qed.

(** ** The parity rule and the rules after it *)

Lemma suffix_cases (w p x : text) :
  w = p ++ x -> In x (map (fun i => skipn i w) (seq 0 (S (length w)))).
Proof.
  intros ->. apply in_map_iff. exists (length p). split.
  - apply skipn_length_app.
  - apply in_seq. rewrite length_app. lia.
Qed.

(** No match of the goal's pattern starts at a character of the word: the
    matcher is run on each suffix of the word, followed by any text. *)
Ltac no_match_inside :=
  let p := fresh "p" in let x := fresh "x" in
  let bef := fresh "bef" in let b := fresh "b" in
  let E := fresh "E" in let Hx := fresh "Hx" in
  intros p x bef b E Hx; apply suffix_cases in E; vm_compute in E;
  repeat (destruct E as [E|E];
          [subst x; first [congruence | vm_compute; reflexivity]|]);
  contradiction.

Ltac by_last_chars :=
  apply no_reach_by_last; vm_compute; reflexivity.

Ltac plain := intros ? ? ?; vm_compute; reflexivity.

Lemma cap_in (r : regex) (cs : list (nat * text)) (n : nat) :
  caps_in r cs -> all_in (group_chars n r) (cap n cs).
Proof.
  unfold cap. induction cs as [|[k t] cs IH]; intros H; simpl.
  - constructor.
  - inversion H as [|? ? Ht Hcs]; subst. simpl in Ht.
    destruct (Nat.eqb_spec n k) as [->|_]; [exact Ht | now apply IH].
Qed.

Lemma capture_chars (r : regex) (bef s : text) (m : rmatch) (n : nat) (c : ascii) :
  match_here r bef s = Some m -> In c (cap n (mcaps m)) ->
  group_chars n r c = true.
Proof.
  intros H Hin. apply match_here_sound in H as [u [post [_ [_ S]]]].
  pose proof (cap_in r (mcaps m) n (shape_caps _ _ _ S)) as A.
  unfold all_in in A. rewrite Forall_forall in A. now apply A.
Qed.

Lemma parity_bug_matches (bef b : text) :
  match_here re_parity bef (parity_bug ++ b) <> None.
Proof. vm_compute. discriminate. Qed.

Lemma parity_replacement (u : text) (cs : list (nat * text)) (pre post : text) :
  rule_replacer rule_parity u cs pre post = parity_fixed.
Proof. reflexivity. Qed.

(** The parity rule leaves no [n % 2 != 0] behind. *)
Lemma rule_parity_removes (s : text) :
  ~ contains parity_bug (apply_rule s rule_parity).
Proof.
  apply apply_rule_no_new.
  - reflexivity.
  - reflexivity.
  - discriminate.
  - intros bef u s0 m _ _. rewrite parity_replacement.
    apply apartb_sound. vm_compute. reflexivity.
  - plain.
  - apply apartb_sound. vm_compute. reflexivity.
  - right. apply parity_bug_matches.
Qed.

(** The parity rule puts [n % 2 == 0] where it finds the inverted test. *)
Lemma rule_parity_fixes (s : text) :
  contains parity_bug s -> contains parity_fixed (apply_rule s rule_parity).
Proof.
  intros Hs. rewrite apply_rule_unfold by reflexivity.
  change (source (pattern rule_parity)) with re_parity.
  assert (Ht : test re_parity s = true).
  { unfold test.
    pose proof (search_finds re_parity parity_bug parity_bug_matches s [] Hs).
    now destruct (search re_parity [] s). }
  rewrite Ht. cbv zeta.
  set (s1 := replace_all re_parity (rule_replacer rule_parity) s).
  assert (H1 : contains parity_fixed s1).
  { apply (scanned_puts re_parity (rule_replacer rule_parity) parity_bug
             parity_fixed) with [] s; auto.
    - discriminate.
    - apply parity_bug_matches.
    - apply replace_scan_scanned. reflexivity. }
  destruct (negb (includes (comment rule_parity) s1)); [|exact H1].
  destruct (explanation_step rule_parity s1) as [->|[a [b [_ ->]]]];
    [plain | exact H1 |].
  apply contains_app_l, contains_app_r, contains_refl.
Qed.

Lemma rule_parity_strict_keeps (s : text) :
  contains parity_fixed s ->
  contains parity_fixed (apply_rule s rule_parity_strict).
Proof.
  apply apply_rule_keeps.
  - reflexivity.
  - reflexivity.
  - no_match_inside.
  - apply (no_reach_by_tail re_parity_strict "n"). vm_compute. reflexivity.
  - plain.
  - left. vm_compute. reflexivity.
Qed.

Lemma rule_off_by_one_keeps (s : text) :
  contains parity_fixed s ->
  contains parity_fixed (apply_rule s rule_off_by_one).
Proof.
  apply apply_rule_keeps.
  - reflexivity.
  - reflexivity.
  - no_match_inside.
  - by_last_chars.
  - plain.
  - left. vm_compute. reflexivity.
Qed.

Lemma rule_bounds_keeps (s : text) :
  contains parity_fixed s -> contains parity_fixed (apply_rule s rule_bounds).
Proof.
  apply apply_rule_keeps.
  - reflexivity.
  - reflexivity.
  - no_match_inside.
  - by_last_chars.
  - plain.
  - left. vm_compute. reflexivity.
Qed.

Lemma rule_and_true_keeps (s : text) :
  contains parity_fixed s -> contains parity_fixed (apply_rule s rule_and_true).
Proof.
  apply apply_rule_keeps.
  - reflexivity.
  - reflexivity.
  - no_match_inside.
  - by_last_chars.
  - plain.
  - now right.
Qed.

Lemma rule_or_false_keeps (s : text) :
  contains parity_fixed s -> contains parity_fixed (apply_rule s rule_or_false).
Proof.
  apply apply_rule_keeps.
  - reflexivity.
  - reflexivity.
  - no_match_inside.
  - by_last_chars.
  - plain.
  - now right.
Qed.

Lemma rule_parity_strict_no_new (s : text) :
  ~ contains parity_bug s ->
  ~ contains parity_bug (apply_rule s rule_parity_strict).
Proof.
  intros Hs. apply apply_rule_no_new.
  - reflexivity.
  - reflexivity.
  - discriminate.
  - intros bef u s0 m _ _.
    change (rule_replacer rule_parity_strict u (mcaps m) (rev bef) s0)
      with (lit "n % 2 === 0").
    apply apartb_sound. vm_compute. reflexivity.
  - plain.
  - apply apartb_sound. vm_compute. reflexivity.
  - now left.
Qed.

Ltac not_in_literal H :=
  vm_compute in H;
  repeat (destruct H as [H|H]; [discriminate|]); exact H.

Lemma rule_off_by_one_no_new (s : text) :
  ~ contains parity_bug s ->
  ~ contains parity_bug (apply_rule s rule_off_by_one).
Proof.
  intros Hs. apply apply_rule_no_new.
  - reflexivity.
  - reflexivity.
  - discriminate.
  - intros bef u s0 m Hm _.
    change (rule_replacer rule_off_by_one u (mcaps m) (rev bef) s0)
      with (lit "for (let i = 0; i < " ++ cap 1 (mcaps m) ++ lit ".length").
    eapply (apart_by_chars parity_bug _ _ "f" "h" "%").
    + reflexivity.
    + exists (lit "for (let i = 0; i < " ++ cap 1 (mcaps m) ++ lit ".lengt").
      now rewrite <- !app_assoc.
    + intros H. not_in_literal H.
    + intros H. not_in_literal H.
    + vm_compute. tauto.
    + intros H. apply in_app_or in H as [H|H]; [not_in_literal H|].
      apply in_app_or in H as [H|H]; [|not_in_literal H].
      apply (capture_chars _ _ _ _ _ _ Hm) in H. vm_compute in H. discriminate.
  - plain.
  - apply apartb_sound. vm_compute. reflexivity.
  - now left.
Qed.

Lemma rule_bounds_no_new (s : text) :
  ~ contains parity_bug s ->
  ~ contains parity_bug (apply_rule s rule_bounds).
Proof.
  intros Hs. apply apply_rule_no_new.
  - reflexivity.
  - reflexivity.
  - discriminate.
  - intros bef u s0 m Hm _.
    change (rule_replacer rule_bounds u (mcaps m) (rev bef) s0)
      with (lit "[" ++ cap 1 (mcaps m) ++ lit ".length - 1]").
    eapply (apart_by_chars parity_bug _ _ "[" "]" "%").
    + reflexivity.
    + exists (lit "[" ++ cap 1 (mcaps m) ++ lit ".length - 1").
      now rewrite <- !app_assoc.
    + intros H. not_in_literal H.
    + intros H. not_in_literal H.
    + vm_compute. tauto.
    + intros H. apply in_app_or in H as [H|H]; [not_in_literal H|].
      apply in_app_or in H as [H|H]; [|not_in_literal H].
      apply (capture_chars _ _ _ _ _ _ Hm) in H. vm_compute in H. discriminate.
  - plain.
  - apply apartb_sound. vm_compute. reflexivity.
  - now left.
Qed.

(** ** Fix mode and the parity check *)

Lemma fixLogicalErrors_unfold (code language : text) :
  fixLogicalErrors code language
  = apply_rule (apply_rule (first_four code) rule_and_true) rule_or_false.
Proof. reflexivity. Qed.

Lemma first_four_unfold (code : text) :
  first_four code
  = apply_rule
      (apply_rule (apply_rule (apply_rule code rule_parity) rule_parity_strict)
         rule_off_by_one)
      rule_bounds.
Proof. reflexivity. Qed.

(** C1, as stated, fails: the rule that deletes [&& true] runs after the
    parity rule and can bring the two halves of an inverted test together,
    so the output of fix mode still contains [n % 2 != 0]. *)
Lemma fix_can_leave_parity_bug :
  contains parity_bug joined_by_deletion /\
  ~ (contains parity_fixed
       (fixLogicalErrors joined_by_deletion (lit "javascript")) /\
     ~ contains parity_bug
         (fixLogicalErrors joined_by_deletion (lit "javascript"))).
Proof.
  split; [by_includes|]. intros [_ H]. apply H. by_includes.
Qed.

(** C1, amended: for an input that contains [n % 2 != 0], the output of fix
    mode contains [n % 2 == 0]; the text left by the first four rules holds
    no [n % 2 != 0]; and neither does the output when neither of the two
    deleting rules fires on that text. *)
Theorem fix_rewrites_parity_check (code language : text)
  (Hbug : contains parity_bug code) :
  contains parity_fixed (fixLogicalErrors code language) /\
  ~ contains parity_bug (first_four code) /\
  (test re_and_true (first_four code) = false ->
   test re_or_false (first_four code) = false ->
   ~ contains parity_bug (fixLogicalErrors code language)).
Proof.
  assert (Hclean : ~ contains parity_bug (first_four code)).
  { rewrite first_four_unfold.
    apply rule_bounds_no_new, rule_off_by_one_no_new,
      rule_parity_strict_no_new, rule_parity_removes. }
  split; [|split; [exact Hclean|]].
  - rewrite fixLogicalErrors_unfold, first_four_unfold.
    apply rule_or_false_keeps, rule_and_true_keeps, rule_bounds_keeps,
      rule_off_by_one_keeps, rule_parity_strict_keeps, rule_parity_fixes.
    exact Hbug.
  - intros Hand Hor. rewrite fixLogicalErrors_unfold.
    rewrite (apply_rule_unfold (first_four code) rule_and_true eq_refl).
    change (source (pattern rule_and_true)) with re_and_true. rewrite Hand.
    rewrite (apply_rule_unfold (first_four code) rule_or_false eq_refl).
    change (source (pattern rule_or_false)) with re_or_false. rewrite Hor.
    exact Hclean.
Qed.

Lemma fix_rewrites_parity_check_witness :
  contains parity_fixed (fixLogicalErrors is_even_py (lit "python")) /\
  ~ contains parity_bug (first_four is_even_py) /\
  (test re_and_true (first_four is_even_py) = false ->
   test re_or_false (first_four is_even_py) = false ->
   ~ contains parity_bug (fixLogicalErrors is_even_py (lit "python"))).
Proof.
  apply (fix_rewrites_parity_check is_even_py (lit "python")).
  by_includes.
Defined.

(** ** The dispatch of performLanguageConversion *)

Lemma text_eqb_eq (a b : text) : text_eqb a b = true <-> a = b.
Proof.
  unfold text_eqb. destruct (list_eq_dec ascii_dec a b); split; congruence.
Qed.

Lemma switch_on_some (key : text) (cases : list (text * (text -> text)))
  (h : text -> text) :
  switch_on key cases = Some h -> In key (map fst cases).
Proof.
  induction cases as [|[label handler] cases IH]; simpl; [discriminate|].
  destruct (text_eqb key label) eqn:E.
  - intros _. left. symmetry. now apply text_eqb_eq.
  - intros H. right. now apply IH.
Qed.

Lemma switch_on_in (key : text) (cases : list (text * (text -> text))) :
  In key (map fst cases) -> exists h, switch_on key cases = Some h.
Proof.
  induction cases as [|[label handler] cases IH]; simpl; [tauto|].
  destruct (text_eqb key label) eqn:E; [now exists handler|].
  intros [K|K]; [|now apply IH].
  subst label. unfold text_eqb in E.
  destruct (list_eq_dec ascii_dec key key); congruence.
Qed.

(** The ways of cutting a key at one of its characters. *)
Lemma key_split (s t k : text) (c : ascii) :
  s ++ c :: t = k ->
  In (s, t) (map (fun i => (firstn i k, skipn (S i) k)) (seq 0 (length k))).
Proof.
  intros <-. apply in_map_iff. exists (length s). split.
  - rewrite firstn_length_app. f_equal.
    replace (s ++ c :: t) with ((s ++ [c]) ++ t)
      by (now rewrite <- app_assoc).
    replace (S (length s)) with (length (s ++ [c]))
      by (rewrite length_app; simpl; lia).
    apply skipn_length_app.
  - apply in_seq. rewrite length_app. simpl. lia.
Qed.

Lemma converter_found (sourceLanguage targetLanguage : text) :
  (exists handler,
      switch_on (sourceLanguage ++ lit "-" ++ targetLanguage) supported_pairs
      = Some handler)
  <-> In (sourceLanguage, targetLanguage) converter_pairs.
Proof.
  split.
  - intros [h H]. apply switch_on_some in H. simpl in H.
    repeat (destruct H as [H|H];
      [pose proof (key_split _ _ _ _ (eq_sym H)) as C; vm_compute in C;
       repeat (destruct C as [C|C];
         [injection C as <- <-; vm_compute in H;
          first [discriminate H | simpl; auto 10]|]);
       contradiction|]).
    contradiction.
  - intros H. unfold converter_pairs in H. simpl in H.
    repeat (destruct H as [H|H];
      [injection H as <- <-; apply switch_on_in; simpl; auto 10|]).
    contradiction.
Qed.

(** X1: the key [source-target] selects a converter exactly for the eight
    pairs of the table; no other pair of texts, whatever hyphens they hold,
    builds one of the eight keys. *)
Theorem conversion_key_is_unambiguous (sourceLanguage targetLanguage : text) :
  (exists handler,
      switch_on (sourceLanguage ++ lit "-" ++ targetLanguage) supported_pairs
      = Some handler)
  <-> In (sourceLanguage, targetLanguage) converter_pairs.
Proof. apply converter_found. Qed.

(** X2: a conversion from a language to itself has no converter; it gives
    the template scaffold, for every language tag. *)
Theorem same_language_goes_to_template (code language : text) :
  performLanguageConversion code language language
  = generateConversionTemplate code language language.
Proof.
  unfold performLanguageConversion.
  destruct (switch_on (language ++ lit "-" ++ language) supported_pairs)
    as [h|] eqn:E; [|reflexivity].
  exfalso.
  assert (H : In (language, language) converter_pairs)
    by (apply converter_found; now exists h).
  simpl in H.
  repeat (destruct H as [H|H]; [injection H as <- H; discriminate H|]).
  contradiction.
Qed.

(** ** The scaffold determines the source *)

Lemma map_prefix_inj (p : text) (ls ls' : list text) :
  map (fun l => p ++ l) ls = map (fun l => p ++ l) ls' -> ls = ls'.
Proof.
  revert ls'. induction ls as [|l ls IH]; intros [|l' ls'] E;
    try discriminate; [reflexivity|].
  injection E as E1 E2. apply app_inv_head in E1. now rewrite E1, (IH ls' E2).
Qed.

Lemma comment_body_inj (code1 code2 : text) :
  comment_body code1 = comment_body code2 -> code1 = code2.
Proof.
  intros E. apply (f_equal (split_on nl)) in E.
  rewrite !comment_body_lines in E. apply map_prefix_inj in E.
  rewrite <- (join_split code1), <- (join_split code2). now rewrite E.
Qed.

(** X3: the scaffold loses nothing of the source: for the same pair of
    languages, two different sources give two different scaffolds. *)
Theorem template_tells_sources_apart
  (code1 code2 sourceLanguage targetLanguage : text) :
  code1 <> code2 ->
  generateConversionTemplate code1 sourceLanguage targetLanguage
  <> generateConversionTemplate code2 sourceLanguage targetLanguage.
Proof.
  intros Hne E. apply Hne. unfold generateConversionTemplate in E.
  apply app_inv_head, app_inv_tail in E. now apply comment_body_inj.
Qed.

Lemma template_tells_sources_apart_witness :
  two_lines <> lit "a" /\
  generateConversionTemplate two_lines (lit "go") (lit "rust")
  <> generateConversionTemplate (lit "a") (lit "go") (lit "rust").
Proof.
  split; [discriminate|].
  apply (template_tells_sources_apart two_lines (lit "a")).
  discriminate.
Defined.

(** ** Language detection: range, white space and precedence *)

(** X4: the answer of the sniffer is always one of the nine values of the
    catalogue; it is [typescript] exactly when no C++ and no Python
    signature matches, a JavaScript signature does, and the trimmed text
    holds both a colon followed by a space and the word function; and it
    is [plaintext] exactly when no signature matches. *)
Theorem detectLanguage_in_catalogue (code : text) :
  In (detectLanguage code) (map fst SUPPORTED_LANGUAGES) /\
  text_eqb (detectLanguage code) (lit "typescript")
  = negb (any_matches cpp_signatures (trim code))
    && negb (any_matches python_signatures (trim code))
    && any_matches javascript_signatures (trim code)
    && (includes (lit ": ") (trim code)
        && includes (lit "function") (trim code)) /\
  text_eqb (detectLanguage code) (lit "plaintext")
  = negb (any_matches all_signatures (trim code)).
Proof.
  unfold detectLanguage, any_matches, all_signatures.
  rewrite !existsb_app.
  destruct (existsb _ cpp_signatures);
    [split; [simpl; auto 12 | split; reflexivity]|].
  destruct (existsb _ python_signatures);
    [split; [simpl; auto 12 | split; reflexivity]|].
  destruct (existsb _ javascript_signatures).
  - destruct (includes (lit ": ") (trim code)
              && includes (lit "function") (trim code));
      (split; [simpl; auto 12 | split; reflexivity]).
  - repeat match goal with
           | |- context [if ?b then _ else _] => destruct b
           end; (split; [simpl; auto 12 | split; reflexivity]).
Qed.

Lemma trim_start_blank (a s : text) :
  blank a = true -> trim_start (a ++ s) = trim_start s.
Proof.
  induction a as [|c a IH]; [reflexivity|]. simpl.
  intros H. apply andb_prop in H as [Hc Ha]. now rewrite Hc, IH.
Qed.

Lemma blank_rev (a : text) : blank (rev a) = blank a.
Proof.
  unfold blank. induction a as [|c a IH]; [reflexivity|]. simpl.
  rewrite forallb_app, IH. simpl. now rewrite andb_true_r, andb_comm.
Qed.

Lemma trim_end_blank (s b : text) :
  blank b = true -> trim_end (s ++ b) = trim_end s.
Proof.
  intros H. unfold trim_end. rewrite rev_app_distr, trim_start_blank; auto.
  now rewrite blank_rev.
Qed.

Lemma trim_start_ink (s b : text) :
  has_ink s = true -> trim_start (s ++ b) = trim_start s ++ b.
Proof.
  induction s as [|c s IH]; [discriminate|]. simpl.
  destruct (is_space c); simpl; [exact IH | reflexivity].
Qed.

Lemma blank_no_ink (s : text) : has_ink s = false -> blank s = true.
Proof.
  induction s as [|c s IH]; [reflexivity|]. simpl.
  destruct (is_space c); simpl; [exact IH | discriminate].
Qed.

Lemma trim_start_all_blank (s : text) : blank s = true -> trim_start s = [].
Proof.
  intros H. rewrite <- (app_nil_r s). now rewrite trim_start_blank.
Qed.

Lemma blank_app (a b : text) : blank (a ++ b) = blank a && blank b.
Proof. apply forallb_app. Qed.

Lemma trim_surrounded (a s b : text) :
  blank a = true -> blank b = true -> trim (a ++ s ++ b) = trim s.
Proof.
  intros Ha Hb. unfold trim. rewrite trim_start_blank by exact Ha.
  destruct (has_ink s) eqn:Hs.
  - rewrite trim_start_ink by exact Hs. now apply trim_end_blank.
  - apply blank_no_ink in Hs.
    rewrite (trim_start_all_blank (s ++ b)) by (now rewrite blank_app, Hs, Hb).
    now rewrite (trim_start_all_blank s).
Qed.

(** X5: white space around the text, line breaks included, does not change
    the detected language. *)
Theorem detectLanguage_ignores_surrounding_space (lead code trail : text) :
  blank lead = true -> blank trail = true ->
  detectLanguage (lead ++ code ++ trail) = detectLanguage code.
Proof.
  intros Hl Ht. unfold detectLanguage. now rewrite trim_surrounded.
Qed.

Lemma detectLanguage_ignores_surrounding_space_witness :
  detectLanguage (lit "  " ++ is_even_py ++ [nl]) = detectLanguage is_even_py.
Proof.
  apply (detectLanguage_ignores_surrounding_space (lit "  ") is_even_py [nl]);
    reflexivity.
Defined.

(** An occurrence of a word that neither starts nor ends with white space
    is still there after trimming. *)
Lemma contains_trim_start (w s : text) (c : ascii) (w1 : text) :
  w = c :: w1 -> is_space c = false ->
  contains w s -> contains w (trim_start s).
Proof.
  intros -> Hc [a [b ->]]. induction a as [|x a IH]; simpl.
  - rewrite Hc. now exists [], b.
  - destruct (is_space x); [exact IH|]. now exists (x :: a), b.
Qed.

Lemma contains_rev (w s : text) : contains w s -> contains (rev w) (rev s).
Proof.
  intros [a [b ->]]. exists (rev b), (rev a).
  now rewrite !rev_app_distr, app_assoc.
Qed.

Lemma contains_trim (w s : text) (c d : ascii) (w1 w2 : text) :
  w = c :: w1 -> w = w2 ++ [d] -> is_space c = false -> is_space d = false ->
  contains w s -> contains w (trim s).
Proof.
  intros Ec Ed Hc Hd H. unfold trim, trim_end.
  rewrite <- (rev_involutive w). apply contains_rev.
  apply (contains_trim_start (rev w) _ d (rev w2)).
  - rewrite Ed, rev_app_distr. reflexivity.
  - exact Hd.
  - apply contains_rev. now apply (contains_trim_start w s c w1).
Qed.

Lemma test_finds (r : regex) (w s : text) :
  (forall bef b, match_here r bef (w ++ b) <> None) ->
  contains w s -> test r s = true.
Proof.
  intros Hm Hs. unfold test.
  pose proof (search_finds r w Hm s [] Hs).
  now destruct (search r [] s).
Qed.

Lemma include_is_cpp (s : text) :
  contains (lit "#include <") s -> detectLanguage s = lit "cpp".
Proof.
  intros H.
  apply (contains_trim _ _ "#" "<" (lit "include <") (lit "#include ")) in H;
    try reflexivity.
  unfold detectLanguage.
  assert (Hc : any_matches cpp_signatures (trim s) = true).
  { unfold any_matches, cpp_signatures. cbn [existsb].
    rewrite (test_finds _ (lit "#include <") (trim s));
      [reflexivity | | exact H].
    intros bef b. vm_compute. discriminate. }
  now rewrite Hc.
Qed.

(** X6: a text that holds [#include <] anywhere is classified as C++,
    whatever else it holds: the C++ signatures are tried first and this
    one is not anchored. *)
Theorem detectLanguage_include_is_cpp (code : text) :
  contains (lit "#include <") code -> detectLanguage code = lit "cpp".
Proof. apply include_is_cpp. Qed.

Lemma detectLanguage_include_is_cpp_witness :
  detectLanguage (lit "console.log('#include <x>')") = lit "cpp".
Proof.
  apply (detectLanguage_include_is_cpp (lit "console.log('#include <x>')")).
  by_includes.
Defined.

(** X7: a text that calls [print(] anywhere is never classified as
    JavaScript or a later language: it is C++ or Python. *)
Theorem detectLanguage_print_is_cpp_or_python (code : text) :
  contains (lit "print(") code ->
  detectLanguage code = lit "cpp" \/ detectLanguage code = lit "python".
Proof.
  intros H.
  apply (contains_trim _ _ "p" "(" (lit "rint(") (lit "print")) in H;
    try reflexivity.
  unfold detectLanguage.
  destruct (any_matches cpp_signatures (trim code)); [now left|]. right.
  assert (Hp : any_matches python_signatures (trim code) = true).
  { unfold any_matches, python_signatures. cbn [existsb].
    rewrite (test_finds (Seqs [Str "print"; ws_star; Chr "("])
               (lit "print(") (trim code));
      [now rewrite !orb_true_r | | exact H].
    intros bef b. vm_compute. discriminate. }
  now rewrite Hp.
Qed.

Lemma detectLanguage_print_is_cpp_or_python_witness :
  detectLanguage (lit "console.log(print(1));") = lit "cpp" \/
  detectLanguage (lit "console.log(print(1));") = lit "python".
Proof.
  apply (detectLanguage_print_is_cpp_or_python (lit "console.log(print(1));")).
  by_includes.
Defined.

(** X8: whatever is converted to C++, by the converter from Python or by
    the template scaffold, is a text that the sniffer classifies as C++. *)
Theorem cpp_output_is_detected_as_cpp (code sourceLanguage : text) :
  detectLanguage (performLanguageConversion code sourceLanguage (lit "cpp"))
  = lit "cpp".
Proof.
  apply include_is_cpp. unfold performLanguageConversion.
  destruct (switch_on (sourceLanguage ++ lit "-" ++ lit "cpp") supported_pairs)
    as [h|] eqn:E.
  - assert (H : In (sourceLanguage, lit "cpp") converter_pairs)
      by (apply converter_found; now exists h).
    assert (Hs : sourceLanguage = lit "python").
    { simpl in H.
      repeat (destruct H as [H|H];
              [apply pair_equal_spec in H as [<- H];
               first [discriminate H | reflexivity]|]).
      contradiction. }
    subst sourceLanguage.
    assert (Hh : h = convertPythonToCpp)
      by (change (Some convertPythonToCpp = Some h) in E; congruence).
    subst h. unfold convertPythonToCpp. cbv zeta. unfold unlines.
    rewrite join_cons by discriminate.
    apply contains_app_r. by_includes.
  - unfold generateConversionTemplate, template_tail.
    rewrite !app_assoc. apply contains_app_l. by_includes.
Qed.

(** ** Names read from a header *)

Lemma advance_nil (st : mstate) : advance [] (rest st) st = st.
Proof.
  destruct st as [b r t c]. unfold advance. simpl. now rewrite Nat.add_0_r.
Qed.

Lemma advance_cons (x : ascii) (u v : text) (st : mstate) :
  advance u v (step_char x (u ++ v) st) = advance (x :: u) v st.
Proof.
  unfold advance, step_char. simpl. rewrite <- app_assoc. simpl.
  f_equal. lia.
Qed.

(** A literal takes itself. *)
Lemma exec_literal (w : text) (k : mstate -> option mstate) :
  forall st v, rest st = w ++ v ->
    exec (Str_chars w) st k = k (advance w v st).
Proof.
  induction w as [|c w IH]; intros st v Hrest.
  - simpl in *. rewrite <- Hrest. now rewrite advance_nil.
  - destruct w as [|d w].
    + cbn [Str_chars exec]. rewrite Hrest. cbn [app]. rewrite Ascii.eqb_refl.
      rewrite <- (advance_cons c [] v st). cbn [app].
      change (advance [] v (step_char c v st))
        with (advance [] (rest (step_char c v st)) (step_char c v st)).
      now rewrite advance_nil.
    + change (Str_chars (c :: d :: w)) with (Seq (Chr c) (Str_chars (d :: w))).
      cbn [exec]. rewrite Hrest. cbn [app]. rewrite Ascii.eqb_refl.
      rewrite (IH _ v) by reflexivity.
      now rewrite <- (advance_cons c (d :: w) v st).
Qed.

(** A greedy star over a class takes the whole run of characters of the
    class when what follows accepts the text after the run. *)
Lemma exec_star_run (cl : cclass) (k : mstate -> option mstate) (res : mstate) :
  forall u st v,
    rest st = u ++ v ->
    forallb (in_class cl) u = true ->
    match v with [] => True | y :: _ => in_class cl y = false end ->
    k (advance u v st) = Some res ->
    exec (Star (Cls cl)) st k = Some res.
Proof.
  induction u as [|x u IH]; intros st v Hrest Hu Hv Hk.
  - simpl in Hrest. rewrite <- Hrest, advance_nil in Hk. cbn [exec].
    rewrite Hrest. destruct v as [|y v]; cbn [length]; [exact Hk|].
    cbn [exec]. rewrite Hrest, Hv. exact Hk.
  - simpl in Hu. apply andb_prop in Hu as [Hx Hu].
    cbn [exec]. rewrite Hrest. cbn [app length]. cbn [exec].
    rewrite Hrest. cbn [app]. rewrite Hx.
    replace (progressed st (step_char x (u ++ v) st)) with true
      by (symmetry; apply Nat.ltb_lt; simpl; lia).
    rewrite <- advance_cons in Hk.
    pose proof (IH (step_char x (u ++ v) st) v eq_refl Hu Hv Hk) as H.
    cbn [exec] in H. cbn [rest step_char] in H. rewrite H. reflexivity.
Qed.

Lemma word_not_space (c : ascii) : is_word c = true -> is_space c = false.
Proof.
  destruct c as [[] [] [] [] [] [] [] []]; vm_compute; congruence.
Qed.

Lemma exec_class_step (cl : cclass) (k : mstate -> option mstate)
  (st : mstate) (x : ascii) (xs : text) :
  rest st = x :: xs -> in_class cl x = true ->
  exec (Cls cl) st k = k (step_char x xs st).
Proof. intros Hrest Hx. cbn [exec]. now rewrite Hrest, Hx. Qed.

(** A header: a keyword, white space, a name, and then no word character. *)
Lemma header_match (kw sp name after bef : text) :
  sp <> [] -> blank sp = true ->
  name <> [] -> forallb is_word name = true ->
  ends_word after = true ->
  exists m,
    match_here (Seq (Str_chars kw) (Seq ws_plus (Grp 1 word_plus))) bef
      (kw ++ sp ++ name ++ after) = Some m /\
    cap 1 (mcaps m) = name.
Proof.
  intros Hsp Hblank Hname Hword Hafter.
  assert (Hafter' : match after with
                    | [] => True
                    | y :: _ => in_class CWord y = false
                    end)
    by (destruct after; [exact I | now apply negb_true_iff in Hafter]).
  destruct sp as [|s0 sp]; [congruence|].
  destruct name as [|n0 name]; [congruence|].
  simpl in Hblank, Hword.
  apply andb_prop in Hblank as [Hs0 Hblank].
  apply andb_prop in Hword as [Hn0 Hword].
  unfold match_here.
  set (st0 := MState bef (kw ++ (s0 :: sp) ++ (n0 :: name) ++ after) 0 []).
  set (st1 := advance kw ((s0 :: sp) ++ (n0 :: name) ++ after) st0).
  set (st2 := step_char s0 (sp ++ (n0 :: name) ++ after) st1).
  set (st3 := advance sp ((n0 :: name) ++ after) st2).
  set (st4 := step_char n0 (name ++ after) st3).
  set (st5 := advance name after st4).
  assert (Hgroup : exec (Grp 1 word_plus) st3 Some
                   = Some (record_group 1 st3 st5)).
  { change (exec (Grp 1 word_plus) st3 Some)
      with (exec (Cls CWord) st3
              (fun a => exec (Star (Cls CWord)) a
                 (fun b => Some (record_group 1 st3 b)))).
    rewrite (exec_class_step CWord _ st3 n0 (name ++ after)); auto.
    apply (exec_star_run CWord _ _ name st4 after); auto. }
  assert (Hall : exec (Seq (Str_chars kw) (Seq ws_plus (Grp 1 word_plus)))
                   st0 Some = Some (record_group 1 st3 st5)).
  { change (exec (Seq (Str_chars kw) (Seq ws_plus (Grp 1 word_plus))) st0 Some)
      with (exec (Str_chars kw) st0
              (fun a => exec (Cls CSpace) a
                 (fun b => exec (Star (Cls CSpace)) b
                    (fun c => exec (Grp 1 word_plus) c Some)))).
    rewrite (exec_literal kw _ st0 ((s0 :: sp) ++ (n0 :: name) ++ after))
      by reflexivity.
    fold st1.
    rewrite (exec_class_step CSpace _ st1 s0 (sp ++ (n0 :: name) ++ after));
      auto.
    apply (exec_star_run CSpace _ _ sp st2 ((n0 :: name) ++ after)); auto.
    cbn [app]. now apply word_not_space. }
  rewrite Hall. eexists. split; [reflexivity|].
  cbn [mcaps caps record_group cap lookup_cap Nat.eqb]. unfold consumed.
  cbn [taken st5 st4 st3 advance step_char rest].
  replace (S (taken st2 + length sp) + length name - (taken st2 + length sp))
    with (S (length name)) by lia.
  cbn [app firstn]. f_equal. apply firstn_length_app.
Qed.

Lemma search_here (r : regex) (bef s : text) (m : rmatch) :
  match_here r bef s = Some m -> search r bef s = Some (0, m).
Proof. intros H. destruct s; cbn [search]; now rewrite H. Qed.

Lemma extractFunctionName_python (code : text) :
  extractFunctionName code (lit "python")
  = match search (Seq (Str_chars (lit "def")) (Seq ws_plus (Grp 1 word_plus)))
            [] code with
    | Some (_, m) => cap 1 (mcaps m)
    | None => lit "unknown"
    end.
Proof. reflexivity. Qed.

Lemma extractFunctionName_js (code : text) :
  let name :=
    match search (Seq (Str_chars (lit "function"))
                    (Seq ws_plus (Grp 1 word_plus))) [] code with
    | Some (_, m) => cap 1 (mcaps m)
    | None => lit "unknown"
    end in
  extractFunctionName code (lit "javascript") = name /\
  extractFunctionName code (lit "typescript") = name.
Proof. split; reflexivity. Qed.

Lemma extractFunctionName_java (code : text) :
  extractFunctionName code (lit "java")
  = match search (Seq (Str_chars (lit "public"))
                    (Seqs [ws_plus; Str "static"; ws_plus; word_plus; ws_plus;
                           Grp 1 word_plus])) [] code with
    | Some (_, m) => cap 1 (mcaps m)
    | None => lit "unknown"
    end.
Proof. reflexivity. Qed.

(** X9: for code that begins with a header, the keyword, white space, and
    a name that ends before a character that is not a word character, the
    name extracted is that name, whole: for [def] in Python and for
    [function] in JavaScript and TypeScript. *)
Theorem extractFunctionName_reads_header (sp name after : text) :
  sp <> [] -> blank sp = true ->
  name <> [] -> forallb is_word name = true ->
  ends_word after = true ->
  extractFunctionName (lit "def" ++ sp ++ name ++ after) (lit "python") = name /\
  extractFunctionName (lit "function" ++ sp ++ name ++ after) (lit "javascript")
    = name /\
  extractFunctionName (lit "function" ++ sp ++ name ++ after) (lit "typescript")
    = name.
Proof.
  intros Hsp Hblank Hname Hword Hafter.
  destruct (header_match (lit "def") sp name after [] Hsp Hblank Hname Hword Hafter)
    as [m1 [H1 C1]].
  destruct (header_match (lit "function") sp name after [] Hsp Hblank Hname
              Hword Hafter) as [m2 [H2 C2]].
  apply search_here in H1, H2.
  pose proof (extractFunctionName_python (lit "def" ++ sp ++ name ++ after)) as P.
  pose proof (extractFunctionName_js (lit "function" ++ sp ++ name ++ after))
    as [J T].
  rewrite H1 in P. rewrite H2 in J, T. rewrite P, J, T. auto.
Qed.

Lemma extractFunctionName_reads_header_witness :
  extractFunctionName (lit "def" ++ lit " " ++ lit "is_even" ++ lit "(n):")
    (lit "python") = lit "is_even" /\
  extractFunctionName (lit "function" ++ lit " " ++ lit "is_even" ++ lit "(n):")
    (lit "javascript") = lit "is_even" /\
  extractFunctionName (lit "function" ++ lit " " ++ lit "is_even" ++ lit "(n):")
    (lit "typescript") = lit "is_even".
Proof.
  apply (extractFunctionName_reads_header (lit " ") (lit "is_even") (lit "(n):"));
    try discriminate; reflexivity.
Defined.

(** ** Names that cannot be read *)

Lemma search_sound (r : regex) (s : text) :
  forall bef i m,
    search r bef s = Some (i, m) ->
    exists pre post,
      s = pre ++ post /\ length pre = i /\
      match_here r (rev pre ++ bef) post = Some m.
Proof.
  induction s as [|c s IH]; intros bef i m H; cbn [search] in H.
  - destruct (match_here r bef []) as [m'|] eqn:E; [|discriminate].
    injection H as <- <-. now exists [], [].
  - destruct (match_here r bef (c :: s)) as [m'|] eqn:E.
    + injection H as <- <-. now exists [], (c :: s).
    + destruct (search r (c :: bef) s) as [[j m']|] eqn:E'; [|discriminate].
      injection H as <- <-.
      destruct (IH _ _ _ E') as [pre [post [-> [<- Hm]]]].
      exists (c :: pre), post. repeat split. simpl.
      now rewrite <- app_assoc.
Qed.

Lemma exec_literal_first (w : text) (k : mstate -> option mstate) :
  forall st res, exec (Str_chars w) st k = Some res ->
    exists v, rest st = w ++ v.
Proof.
  induction w as [|c w IH]; intros st res H.
  - now exists (rest st).
  - assert (Hc : exists k', exec (Chr c) st k' = Some res /\
                   forall st', k' st' <> None ->
                     exists res', exec (Str_chars w) st' k = Some res'
                               \/ w = []).
    { destruct w as [|d w].
      - exists k. split; [exact H|]. intros st' _. exists res. now right.
      - exists (fun st' => exec (Str_chars (d :: w)) st' k).
        split; [exact H|]. intros st' Hst'.
        destruct (exec (Str_chars (d :: w)) st' k) as [res'|]; [|congruence].
        exists res'. now left. }
    destruct Hc as [k' [Hc Hk']]. cbn [exec] in Hc.
    destruct (rest st) as [|x xs] eqn:R; [discriminate|].
    destruct (Ascii.eqb_spec x c) as [->|]; [|discriminate].
    destruct (Hk' (step_char c xs st)) as [res' [Hw| ->]]; [congruence| |].
    + apply IH in Hw as [v Hv]. cbn [rest step_char] in Hv. subst xs.
      now exists v.
    + now exists xs.
Qed.

Lemma literal_first (w : text) (r : regex) (bef s : text) (m : rmatch) :
  match_here (Seq (Str_chars w) r) bef s = Some m -> exists v, s = w ++ v.
Proof.
  unfold match_here. cbn [exec]. intros H.
  destruct (exec (Str_chars w) (MState bef s 0 [])
              (fun st' => exec r st' Some)) as [res|] eqn:E; [|discriminate].
  now apply exec_literal_first in E.
Qed.

Lemma no_keyword_no_match (w : text) (r : regex) (code : text) :
  ~ contains w code -> search (Seq (Str_chars w) r) [] code = None.
Proof.
  intros Hno. destruct (search _ [] code) as [[i m]|] eqn:E; [|reflexivity].
  exfalso. apply Hno.
  apply search_sound in E as [pre [post [-> [_ Hm]]]].
  apply literal_first in Hm as [v ->]. now exists pre, v.
Qed.

(** X10: the name is [unknown] for the languages of the catalogue that
    have no name pattern (C#, Go, Rust and plain text), and whenever the
    code does not hold the keyword the pattern of its language starts
    with: [def], [function] or [public]. *)
Theorem extractFunctionName_unknown (code language : text) :
  (In language (map fst SUPPORTED_LANGUAGES) /\
   lookup_pattern language name_patterns = None) \/
  (exists keyword,
      In (language, keyword) header_keywords /\ ~ contains keyword code) ->
  extractFunctionName code language = lit "unknown".
Proof.
  intros [[_ H]|[keyword [Hin Hno]]].
  - unfold extractFunctionName. now rewrite H.
  - destruct (extractFunctionName_js code) as [J T].
    unfold header_keywords in Hin. cbn [In] in Hin.
    destruct Hin as [Hin|[Hin|[Hin|[Hin|[]]]]];
      apply pair_equal_spec in Hin as [<- <-].
    + rewrite extractFunctionName_python. now rewrite no_keyword_no_match.
    + rewrite J. now rewrite no_keyword_no_match.
    + rewrite T. now rewrite no_keyword_no_match.
    + rewrite extractFunctionName_java. now rewrite no_keyword_no_match.
Qed.

Lemma extractFunctionName_unknown_witness :
  extractFunctionName (lit "x = 1") (lit "python") = lit "unknown" /\
  extractFunctionName is_even_py (lit "go") = lit "unknown".
Proof.
  split.
  - apply (extractFunctionName_unknown (lit "x = 1") (lit "python")).
    right. exists (lit "def"). split; [simpl; auto | by_includes].
  - apply (extractFunctionName_unknown is_even_py (lit "go")).
    left. split; [simpl; auto 10 | reflexivity].
Defined.

(** ** The test simulator on batches without null *)

Section SimulatorOnBatches.

Variable number : Type.
Variables js_add js_mul js_rem : value number -> value number -> value number.
Variable num_eqb : number -> number -> bool.
Variables num_zero num_two : number.

Local Abbreviation run_case' :=
  (run_case js_add js_mul js_rem num_eqb num_zero num_two).
Local Abbreviation evaluate_case' :=
  (evaluate_case js_add js_mul js_rem num_eqb num_zero num_two).
Local Abbreviation runTestCases' :=
  (runTestCases js_add js_mul js_rem num_eqb num_zero num_two).

Lemma run_case_generic (code language : text) (testCase : value number) :
  generic_name (extractFunctionName code language) = true ->
  nullish testCase = false ->
  exists e i,
    get_field testCase (lit "expected") = Ok e /\
    get_field testCase (lit "input") = Ok i /\
    run_case' code language testCase = Ok (MkTestResult true e e i None).
Proof.
  unfold generic_name. intros Hg Hobj.
  apply andb_prop in Hg as [Hg Hm]. apply andb_prop in Hg as [He Ha].
  apply negb_true_iff in He, Ha, Hm.
  destruct (get_field_defined number testCase (lit "expected") Hobj) as [e Hx].
  destruct (get_field_defined number testCase (lit "input") Hobj) as [i Hi].
  exists e, i. split; [exact Hx|]. split; [exact Hi|].
  unfold run_case, evaluate_case. rewrite He, Ha, Hm, Hx, Hi. reflexivity.
Qed.

(** X11: for a language of the catalogue, when the extracted name falls
    into no category, every test case of a batch without null passes,
    with the expected value reported as the actual one, so the runner
    shows all tests as passed whatever the code computes. *)
Theorem unrecognised_name_passes_every_case (now : nat) (code language : text)
  (testCases : list (value number)) :
  In language (map fst SUPPORTED_LANGUAGES) ->
  generic_name (extractFunctionName code language) = true ->
  forallb (fun tc => negb (nullish tc)) testCases = true ->
  exists results,
    outcome (runTestCases' now code language testCases) = Ok results /\
    Forall2 (fun tc r =>
               passed r = true /\ actual r = expected r /\ error r = None /\
               get_field tc (lit "expected") = Ok (expected r))
      testCases results /\
    passedTests results = length testCases /\
    totalTests results = length testCases.
Proof.
  intros _ Hg. unfold runTestCases. cbn [outcome].
  induction testCases as [|tc tcs IH]; intros Hall.
  - exists []. repeat split. constructor.
  - simpl in Hall. apply andb_prop in Hall as [Htc Htcs].
    apply negb_true_iff in Htc.
    destruct (run_case_generic code language tc Hg Htc) as [e [i [He [Hi Hr]]]].
    destruct (IH Htcs) as [rs [Hrs [Hall2 [Hp Ht]]]].
    exists (MkTestResult true e e i None :: rs).
    cbn [map_result]. rewrite Hr, Hrs. simpl. split; [reflexivity|].
    split; [constructor; [auto | exact Hall2]|].
    unfold passedTests, totalTests in *. simpl. now rewrite Hp, Ht.
Qed.

(** X12: a batch without null and undefined always settles with a list of
    results, one per test case and in the order of the batch, each
    reporting the input and the expected value of its test case. *)
Theorem batch_without_null_gets_results (now : nat) (code language : text)
  (testCases : list (value number)) :
  forallb (fun tc => negb (nullish tc)) testCases = true ->
  exists results,
    outcome (runTestCases' now code language testCases) = Ok results /\
    length results = length testCases /\
    Forall2 reports testCases results.
Proof. apply runTestCases_shape. Qed.

(** X13: a test case whose evaluation throws, other than null and
    undefined, fails alone: its result has [passed = false],
    [actual = null] and the message of the exception, and the results
    before and after it are those of the batch without it. *)
Theorem throwing_case_fails_alone (now : nat) (code language : text)
  (before after : list (value number)) (bad : value number) (e : exn)
  (rb ra : list (TestResult number)) :
  nullish bad = false ->
  evaluate_case' (extractFunctionName code language) bad = Throw e ->
  outcome (runTestCases' now code language (before ++ after))
    = Ok (rb ++ ra) ->
  length rb = length before ->
  exists r,
    outcome (runTestCases' now code language (before ++ bad :: after))
      = Ok (rb ++ r :: ra) /\
    passed r = false /\ actual r = VNull /\
    error r = Some (error_message e) /\ reports bad r.
Proof. apply runTestCases_isolation. Qed.

End SimulatorOnBatches.

Lemma unrecognised_name_passes_every_case_witness :
  exists results,
    outcome (runTestCases nat_add nat_mul nat_rem Nat.eqb 0 2 0
               (lit "x = 1") (lit "python")
               [test_case (VArr [VNum nat 1]) (VNum nat 7)]) = Ok results /\
    Forall2 (fun tc r =>
               passed r = true /\ actual r = expected r /\ error r = None /\
               get_field tc (lit "expected") = Ok (expected r))
      [test_case (VArr [VNum nat 1]) (VNum nat 7)] results /\
    passedTests results = 1 /\
    totalTests results = 1.
Proof.
  apply (unrecognised_name_passes_every_case nat nat_add nat_mul nat_rem
           Nat.eqb 0 2 0 (lit "x = 1") (lit "python")
           [test_case (VArr [VNum nat 1]) (VNum nat 7)]);
    [simpl; auto 10 | vm_compute; reflexivity | vm_compute; reflexivity].
Defined.

Lemma batch_without_null_gets_results_witness :
  exists results,
    outcome (runTestCases nat_add nat_mul nat_rem Nat.eqb 0 2 0
               is_even_py (lit "python")
               [test_case (VArr [VNum nat 4]) (VBool true);
                test_case (VArr [VNum nat 3]) (VBool true)]) = Ok results /\
    length results = 2 /\
    Forall2 reports
      [test_case (VArr [VNum nat 4]) (VBool true);
       test_case (VArr [VNum nat 3]) (VBool true)] results.
Proof.
  apply (batch_without_null_gets_results nat nat_add nat_mul nat_rem Nat.eqb
           0 2 0 is_even_py (lit "python")
           [test_case (VArr [VNum nat 4]) (VBool true);
            test_case (VArr [VNum nat 3]) (VBool true)]).
  reflexivity.
Defined.

Lemma throwing_case_fails_alone_witness :
  exists r,
    outcome (runTestCases nat_add nat_mul nat_rem Nat.eqb 0 2 0
               (lit "def add(a, b):") (lit "python")
               ([test_case (VArr [VNum nat 1; VNum nat 2]) (VNum nat 3)]
                  ++ VObj [(lit "expected", VNum nat 3)] :: []))
      = Ok ([MkTestResult true (VNum nat 3) (VNum nat 3)
               (VArr [VNum nat 1; VNum nat 2]) None] ++ r :: []) /\
    passed r = false /\ actual r = VNull /\
    error r = Some (error_message (TypeError (lit "undefined is not iterable"))) /\
    reports (VObj [(lit "expected", VNum nat 3)]) r.
Proof.
  apply (throwing_case_fails_alone nat nat_add nat_mul nat_rem Nat.eqb 0 2 0
           (lit "def add(a, b):") (lit "python")
           [test_case (VArr [VNum nat 1; VNum nat 2]) (VNum nat 3)] []
           (VObj [(lit "expected", VNum nat 3)])
           (TypeError (lit "undefined is not iterable"))
           [MkTestResult true (VNum nat 3) (VNum nat 3)
              (VArr [VNum nat 1; VNum nat 2]) None] []);
    vm_compute; reflexivity.
Defined.

(** ** Fix rules that do not fire, and the explanation of those that do *)

Lemma apply_rule_idle (s : text) (rule : fix_rule) :
  fresh rule -> test (source (pattern rule)) s = false ->
  apply_rule s rule = s.
Proof. intros Hf Ht. rewrite apply_rule_unfold by exact Hf. now rewrite Ht. Qed.

(** X14: code in which none of the six patterns occurs comes back from fix
    mode unchanged. *)
Theorem fix_leaves_clean_code_alone (code language : text) :
  no_rule_fires code = true -> fixLogicalErrors code language = code.
Proof.
  unfold no_rule_fires, errorPatterns. cbn [forallb]. intros H.
  repeat (apply andb_prop in H as [?H H]).
  repeat match goal with
         | K : negb _ = true |- _ => apply negb_true_iff in K
         end.
  unfold fixLogicalErrors, errorPatterns. cbn [fold_left].
  repeat (rewrite (apply_rule_idle code) by (reflexivity || assumption)).
  reflexivity.
Qed.

Lemma fix_leaves_clean_code_alone_witness :
  no_rule_fires (lit "x = 1") = true /\
  fixLogicalErrors (lit "x = 1") (lit "python") = lit "x = 1".
Proof.
  split; [vm_compute; reflexivity|].
  apply (fix_leaves_clean_code_alone (lit "x = 1") (lit "python")).
  vm_compute. reflexivity.
Defined.

(** A character that is neither in the text nor in any replacement is not
    in the result of a global replacement. *)
Lemma scanned_chars (r : regex) (f : replacer) (c : ascii) :
  (forall bef u s m,
      match_here r bef (u ++ s) = Some m -> mlen m = length u ->
      ~ In c (f u (mcaps m) (rev bef) s)) ->
  forall bef s o, scanned r f bef s o -> ~ In c s -> ~ In c o.
Proof.
  intros Hf bef s o Hs.
  induction Hs as [bef|bef x s o Hm Hs IH|bef u s o m Hu Hm Hl Hs IH];
    intros Hno Hin.
  - exact Hin.
  - destruct Hin as [->|Hin]; [apply Hno; now left|].
    apply IH; [|exact Hin]. intros H. apply Hno. now right.
  - apply in_app_or in Hin as [Hin|Hin].
    + exact (Hf _ _ _ _ Hm Hl Hin).
    + apply IH; [|exact Hin]. intros H. apply Hno.
      apply in_or_app. now right.
Qed.

Lemma index_rule_no_dollar (rule : fix_rule) (code : text) :
  In rule [rule_off_by_one; rule_bounds] -> ~ In "$"%char code ->
  ~ In "$"%char
      (replace_all (source (pattern rule)) (rule_replacer rule) code).
Proof.
  intros Hr Hno.
  apply (scanned_chars (source (pattern rule)) (rule_replacer rule) "$")
    with [] code; [| |exact Hno].
  - intros bef u s m Hm _ Hin.
    destruct Hr as [<-|[<-|[]]].
    + change (rule_replacer rule_off_by_one u (mcaps m) (rev bef) s)
        with (lit "for (let i = 0; i < " ++ cap 1 (mcaps m) ++ lit ".length")
        in Hin.
      apply in_app_or in Hin as [H|H]; [not_in_literal H|].
      apply in_app_or in H as [H|H]; [|not_in_literal H].
      apply (capture_chars _ _ _ _ _ _ Hm) in H. vm_compute in H. discriminate.
    + change (rule_replacer rule_bounds u (mcaps m) (rev bef) s)
        with (lit "[" ++ cap 1 (mcaps m) ++ lit ".length - 1]") in Hin.
      apply in_app_or in Hin as [H|H]; [not_in_literal H|].
      apply in_app_or in H as [H|H]; [|not_in_literal H].
      apply (capture_chars _ _ _ _ _ _ Hm) in H. vm_compute in H. discriminate.
  - apply replace_scan_scanned. now destruct Hr as [<-|[<-|[]]].
Qed.

(** X15: on code without a dollar sign, the off-by-one rule and the bounds
    rule only rewrite: the step that should add the explanation comment
    searches for the replacement template, dollar sign included, and
    never finds it. *)
Theorem index_rules_add_no_explanation (rule : fix_rule) (code : text) :
  In rule [rule_off_by_one; rule_bounds] -> ~ In "$"%char code ->
  apply_rule code rule
  = if test (source (pattern rule)) code
    then replace_all (source (pattern rule)) (rule_replacer rule) code
    else code.
Proof.
  intros Hr Hno.
  pose proof (index_rule_no_dollar rule code Hr Hno) as H1.
  assert (Hfresh : fresh rule) by now destruct Hr as [<-|[<-|[]]].
  assert (Hplain : plain_note rule) by (destruct Hr as [<-|[<-|[]]]; plain).
  assert (Hdollar : In "$"%char (replacement rule))
    by (destruct Hr as [<-|[<-|[]]]; vm_compute; tauto).
  rewrite apply_rule_unfold by exact Hfresh.
  destruct (test (source (pattern rule)) code); [|reflexivity]. cbv zeta.
  set (s1 := replace_all (source (pattern rule)) (rule_replacer rule) code) in *.
  destruct (negb (includes (comment rule) s1)); [|reflexivity].
  destruct (explanation_step rule s1 Hplain) as [E|[a [b [E _]]]];
    [exact E|].
  exfalso. apply H1. rewrite E. apply in_or_app. right.
  apply in_or_app. now left.
Qed.

Lemma index_rules_add_no_explanation_witness :
  apply_rule (lit "x = arr[arr.length]") rule_bounds
  = if test (source (pattern rule_bounds)) (lit "x = arr[arr.length]")
    then replace_all (source (pattern rule_bounds)) (rule_replacer rule_bounds)
           (lit "x = arr[arr.length]")
    else lit "x = arr[arr.length]".
Proof.
  apply (index_rules_add_no_explanation rule_bounds (lit "x = arr[arr.length]")).
  - right. now left.
  - intros H. not_in_literal H.
Defined.

(** X16: when one of the two boolean rules fires, its matches are deleted,
    and its explanation, unless the text already holds it, is put in front
    of the whole text, not next to a match. *)
Theorem boolean_rules_put_explanation_first (rule : fix_rule) (code : text) :
  In rule [rule_and_true; rule_or_false] ->
  test (source (pattern rule)) code = true ->
  let deleted :=
    replace_all (source (pattern rule)) (rule_replacer rule) code in
  apply_rule code rule
  = if includes (comment rule) deleted then deleted
    else rule_note rule ++ deleted.
Proof.
  intros Hr Ht. cbv zeta.
  assert (Hfresh : fresh rule) by now destruct Hr as [<-|[<-|[]]].
  rewrite apply_rule_unfold by exact Hfresh. rewrite Ht. cbv zeta.
  generalize (replace_all (source (pattern rule)) (rule_replacer rule) code).
  intros s1.
  destruct (includes (comment rule) s1); [reflexivity|]. cbn [negb].
  destruct Hr as [<-|[<-|[]]];
    (change (replacement _) with (@nil ascii);
     rewrite replace_first_empty; f_equal; reflexivity).
Qed.

Lemma boolean_rules_put_explanation_first_witness :
  let deleted :=
    replace_all (source (pattern rule_and_true)) (rule_replacer rule_and_true)
      (lit "if (ok && true) { run(); }") in
  apply_rule (lit "if (ok && true) { run(); }") rule_and_true
  = if includes (comment rule_and_true) deleted then deleted
    else rule_note rule_and_true ++ deleted.
Proof.
  apply (boolean_rules_put_explanation_first rule_and_true
           (lit "if (ok && true) { run(); }")).
  - now left.
  - vm_compute. reflexivity.
Defined.

(** ** The strict parity rule *)

Lemma strict_bug_matches (bef b : text) :
  match_here re_parity_strict bef (strict_bug ++ b) <> None.
Proof. vm_compute. discriminate. Qed.

Lemma rule_parity_keeps_strict (s : text) :
  contains strict_bug s -> contains strict_bug (apply_rule s rule_parity).
Proof.
  apply apply_rule_keeps.
  - reflexivity.
  - reflexivity.
  - no_match_inside.
  - apply (no_reach_by_tail re_parity "n"). vm_compute. reflexivity.
  - plain.
  - left. vm_compute. reflexivity.
Qed.

Lemma rule_parity_strict_fixes (s : text) :
  contains strict_bug s ->
  contains strict_fixed (apply_rule s rule_parity_strict).
Proof.
  intros Hs. rewrite apply_rule_unfold by reflexivity.
  change (source (pattern rule_parity_strict)) with re_parity_strict.
  assert (Ht : test re_parity_strict s = true)
    by (apply (test_finds _ strict_bug); [apply strict_bug_matches | exact Hs]).
  rewrite Ht. cbv zeta.
  set (s1 := replace_all re_parity_strict (rule_replacer rule_parity_strict) s).
  assert (H1 : contains strict_fixed s1).
  { apply (scanned_puts re_parity_strict (rule_replacer rule_parity_strict)
             strict_bug strict_fixed) with [] s; auto.
    - discriminate.
    - apply strict_bug_matches.
    - apply replace_scan_scanned. reflexivity. }
  destruct (negb (includes (comment rule_parity_strict) s1)); [|exact H1].
  destruct (explanation_step rule_parity_strict s1) as [->|[a [b [_ ->]]]];
    [plain | exact H1 |].
  apply contains_app_l, contains_app_r, contains_refl.
Qed.

Lemma later_rules_keep_strict_fixed (rule : fix_rule) (s : text) :
  In rule [rule_off_by_one; rule_bounds; rule_and_true; rule_or_false] ->
  contains strict_fixed s -> contains strict_fixed (apply_rule s rule).
Proof.
  intros Hr.
  destruct Hr as [<-|[<-|[<-|[<-|[]]]]]; apply apply_rule_keeps;
    try reflexivity; try no_match_inside; try by_last_chars; try plain;
    first [left; vm_compute; reflexivity | now right].
Qed.

(** X17: for an input that contains the strict spelling [n % 2 !== 0], the
    output of fix mode contains [n % 2 === 0]: the first rule leaves the
    strict spelling alone, the second rewrites it, and no later rule
    touches the repair. *)
Theorem fix_rewrites_strict_parity_check (code language : text) :
  contains strict_bug code ->
  contains strict_fixed (fixLogicalErrors code language).
Proof.
  intros H. rewrite fixLogicalErrors_unfold, first_four_unfold.
  repeat (apply later_rules_keep_strict_fixed; [simpl; tauto|]).
  apply rule_parity_strict_fixes, rule_parity_keeps_strict, H.
Qed.

Lemma fix_rewrites_strict_parity_check_witness :
  contains strict_bug is_even_js /\
  contains strict_fixed (fixLogicalErrors is_even_js (lit "javascript")).
Proof.
  split; [by_includes|].
  apply (fix_rewrites_strict_parity_check is_even_js (lit "javascript")).
  by_includes.
Defined.

(** ** The converters to python delete every closing brace *)

Lemma replace_scan_deletes_only (r : regex) (f : replacer) (c : ascii) :
  (forall u cs pre post, f u cs pre post = []) ->
  forall s skip bef, In c (replace_scan r f skip bef s) -> In c s.
Proof.
  intros Hf. induction s as [|x s IH]; intros skip bef H.
  - destruct skip; cbn [replace_scan] in H; [|exact H].
    destruct (match_here r bef []); [rewrite Hf in H|]; exact H.
  - destruct skip as [|k]; cbn [replace_scan] in H.
    + destruct (match_here r bef (x :: s)) as [m|].
      * rewrite Hf in H. cbn [app] in H.
        destruct (mlen m).
        -- destruct H as [->|H]; [now left | right; exact (IH _ _ H)].
        -- right. exact (IH _ _ H).
      * destruct H as [->|H]; [now left | right; exact (IH _ _ H)].
    + right. exact (IH _ _ H).
Qed.

Lemma match_here_char (c : ascii) (bef s : text) :
  match_here (Chr c) bef s
  = match s with
    | x :: _ => if Ascii.eqb x c then Some (RMatch 1 []) else None
    | [] => None
    end.
Proof.
  unfold match_here. cbn [exec rest]. destruct s as [|x s]; [reflexivity|].
  destruct (Ascii.eqb x c); reflexivity.
Qed.

Lemma delete_char_all (c : ascii) (f : replacer) :
  (forall u cs pre post, f u cs pre post = []) ->
  forall s bef, ~ In c (replace_scan (Chr c) f 0 bef s).
Proof.
  intros Hf. induction s as [|x s IH]; intros bef H;
    cbn [replace_scan] in H; rewrite match_here_char in H.
  - exact H.
  - destruct (Ascii.eqb_spec x c) as [->|Hx].
    + cbn [mlen] in H. rewrite Hf in H. cbn [app] in H.
      exact (IH _ H).
    + destruct H as [H|H]; [congruence | exact (IH _ H)].
Qed.

Lemma erased (r : regex) (u : text) (cs : list (nat * text)) (pre post : text) :
  by_template r [] u cs pre post = [].
Proof. reflexivity. Qed.

Lemma no_brace_after_deletion (c : text) :
  ~ In "}"%char (replace_tmpl re_semi_eol [] (replace_tmpl re_close_brace [] c)).
Proof.
  intros H. unfold replace_tmpl, replace_all in H.
  apply (replace_scan_deletes_only _ _ _ (erased re_semi_eol)) in H.
  revert H. apply delete_char_all. apply erased.
Qed.

(** X18: the output of the Java to Python and of the C++ to Python
    converter never holds a closing brace, whatever the input: the last two
    steps delete every one and add none. *)
Theorem to_python_leaves_no_closing_brace (code : text) :
  ~ In "}"%char (convertJavaToPython code) /\
  ~ In "}"%char (convertCppToPython code).
Proof. split; apply no_brace_after_deletion. Qed.

(** ** The conversion history *)

(** X19: the history never grows beyond ten entries: after an update it
    has one entry more than before, up to ten; the newest conversion comes
    first, and the nine newest of the earlier ones follow in their
    order. *)
Theorem history_keeps_last_ten {A : Type} (newConversion : A) (prev : list A) :
  length (push_conversion newConversion prev) = Nat.min 10 (S (length prev)) /\
  hd_error (push_conversion newConversion prev) = Some newConversion /\
  forall i, i < 9 ->
    nth_error (push_conversion newConversion prev) (S i) = nth_error prev i.
Proof.
  unfold push_conversion. split; [|split; [reflexivity|]].
  - cbn [length]. rewrite length_firstn. lia.
  - intros i Hi. cbn [nth_error]. rewrite nth_error_firstn.
    now apply Nat.ltb_lt in Hi as ->.
Qed.

(** ** Pattern objects on the heap *)

Lemma store_same (h : heap) (a : nat) (re : regexp) :
  nth_error h a = Some re -> store a re h = h.
Proof.
  revert a. induction h as [|x h IH]; intros [|a] H; simpl in *;
    try discriminate.
  - now injection H as ->.
  - now rewrite IH.
Qed.

Lemma nth_error_store (h : heap) (a : nat) (re re0 : regexp) :
  nth_error h a = Some re0 -> nth_error (store a re h) a = Some re.
Proof.
  revert a. induction h as [|x h IH]; intros [|a] H; simpl in *;
    try discriminate; [reflexivity | now apply IH].
Qed.

Lemma store_store (h : heap) (a : nat) (re re' : regexp) :
  store a re (store a re' h) = store a re h.
Proof.
  revert a. induction h as [|x h IH]; intros [|a]; simpl;
    try reflexivity. now rewrite IH.
Qed.

Lemma regexp_test_miss (re re' : regexp) (s : text) :
  regexp_test re s = (false, re') -> re' = RegExp (source re) 0.
Proof.
  unfold regexp_test. destruct (length s <? lastIndex re).
  - now intros [= <-].
  - destruct (search _ _ _) as [[i m]|]; [discriminate | now intros [= <-]].
Qed.

Lemma regexp_test_source (re : regexp) (s : text) :
  source (snd (regexp_test re s)) = source re.
Proof.
  unfold regexp_test. destruct (length s <? lastIndex re); [reflexivity|].
  destruct (search _ _ _) as [[i m]|]; reflexivity.
Qed.

Lemma fresh_object (rule : fix_rule) :
  fresh rule -> RegExp (source (pattern rule)) 0 = pattern rule.
Proof.
  unfold fresh. destruct (pattern rule) as [r i]. simpl. now intros ->.
Qed.

(** A pattern object remembers: tested twice on the same text, the object
    of the parity rule answers true and then false.  What a body returns
    can therefore depend on what was done to its pattern objects before. *)
Lemma second_test_differs :
  let h := [RegExp re_parity 0] in
  fst (RegExp_test 0 parity_bug h) = true /\
  fst (RegExp_test 0 parity_bug (snd (RegExp_test 0 parity_bug h))) = false.
Proof. split; vm_compute; reflexivity. Qed.

(** The callback, run on a rule whose object is as the literal made it,
    returns what [apply_rule] computes and leaves the object as it was. *)
Lemma apply_rule_at_spec (h : heap) (a : nat) (rule : fix_rule) (s : text) :
  fresh rule -> nth_error h a = Some (pattern rule) ->
  apply_rule_at s (RuleObject a (replacement rule) (comment rule)) h
  = (apply_rule s rule, h).
Proof.
  intros Hfresh Ha.
  unfold apply_rule_at, bind_heap, RegExp_test, apply_rule.
  cbn [pattern_at replacement_text comment_text]. rewrite Ha.
  pose proof (regexp_test_source (pattern rule) s) as Hsrc.
  destruct (regexp_test (pattern rule) s) as [found p1] eqn:E.
  cbn [snd] in Hsrc. destruct found.
  - unfold String_replace. rewrite (nth_error_store h a p1 _ Ha).
    unfold regexp_replace, unit_heap.
    rewrite store_store, Hsrc, (fresh_object rule Hfresh).
    now rewrite (store_same h a _ Ha).
  - apply regexp_test_miss in E. subst p1.
    rewrite (fresh_object rule Hfresh). unfold unit_heap.
    now rewrite (store_same h a _ Ha).
Qed.

Lemma new_rules_spec (literals : list fix_rule) (h : heap) :
  new_rules literals h
  = (rules_from (length h) literals, h ++ new_objects literals).
Proof.
  revert h. induction literals as [|rule literals IH]; intros h.
  - unfold new_objects. simpl. unfold unit_heap. now rewrite app_nil_r.
  - cbn [new_rules]. unfold bind_heap, new_RegExp. rewrite IH.
    unfold unit_heap, new_objects. cbn [rules_from map].
    rewrite length_app. cbn [length]. rewrite Nat.add_1_r.
    now rewrite <- app_assoc.
Qed.

Lemma for_each_rules (literals : list fix_rule) :
  Forall fresh literals ->
  forall (a : nat) (h : heap) (s : text),
    (forall i rule,
        nth_error literals i = Some rule ->
        nth_error h (a + i) = Some (pattern rule)) ->
    for_each apply_rule_at (rules_from a literals) s h
    = (fold_left apply_rule literals s, h).
Proof.
  induction 1 as [|rule literals Hrule Hall IH]; intros a h s Hh.
  - reflexivity.
  - cbn [rules_from for_each fold_left]. unfold bind_heap.
    rewrite apply_rule_at_spec; [|exact Hrule|].
    + apply IH. intros i r Hi.
      replace (S a + i) with (a + S i) by lia. now apply Hh.
    + replace a with (a + 0) at 1 by lia. now apply Hh.
Qed.

(** Fix mode on the heap: the text is the one [fixLogicalErrors] computes,
    whatever the heap holds; the objects that were there are untouched,
    and the six new ones are left with [lastIndex = 0]. *)
Lemma fixLogicalErrors_on_heap_spec (code language : text) (h : heap) :
  fixLogicalErrors_on_heap code language h
  = (fixLogicalErrors code language, h ++ new_objects errorPatterns).
Proof.
  unfold fixLogicalErrors_on_heap, bind_heap. rewrite new_rules_spec.
  assert (Hfresh : Forall fresh errorPatterns) by (repeat constructor).
  apply for_each_rules; [exact Hfresh|].
  intros i rule Hi. rewrite nth_error_app2 by lia.
  replace (length h + i - length h) with i by lia.
  unfold new_objects. rewrite nth_error_map, Hi. cbn [option_map].
  f_equal. apply fresh_object.
  rewrite Forall_forall in Hfresh. apply Hfresh.
  eapply nth_error_In. exact Hi.
Qed.

Lemma new_objects_reset (literals : list fix_rule) :
  Forall (fun re => lastIndex re = 0) (new_objects literals).
Proof.
  unfold new_objects. apply Forall_map. apply Forall_forall. reflexivity.
Qed.

Section Determinism.

Variable number : Type.
Variables js_add js_mul js_rem : value number -> value number -> value number.
Variable num_eqb : number -> number -> bool.
Variables num_zero num_two : number.

Local Abbreviation perform' :=
  (perform js_add js_mul js_rem num_eqb num_zero num_two).
Local Abbreviation session' :=
  (session js_add js_mul js_rem num_eqb num_zero num_two).

Lemma perform_spec (now : nat) (c : call number) (h : heap) :
  exists a objects,
    perform' now c h = (a, h ++ objects) /\
    Forall (fun re => lastIndex re = 0) objects /\
    returned a = returned (fst (perform' 0 c [])).
Proof.
  destruct c as [code sourceLanguage targetLanguage mode
                |code language testCases].
  - destruct mode; cbn [perform convertCode_on_heap]; unfold bind_heap.
    + eexists. exists []. rewrite app_nil_r. repeat split. constructor.
    + rewrite !fixLogicalErrors_on_heap_spec. unfold unit_heap.
      eexists. exists (new_objects errorPatterns).
      split; [reflexivity|]. split; [apply new_objects_reset | reflexivity].
  - eexists. exists []. rewrite app_nil_r. repeat split. constructor.
Qed.

(** C8: a call of [convertCode], in either mode, or of [runTestCases]
    settles with the same text or the same completion whenever it is made
    and whatever calls were made before it, from whatever heap: two runs
    with the same arguments, each at its own time after its own earlier
    calls, return the same.  The call leaves the pattern objects of the
    earlier calls untouched and its own with [lastIndex = 0], and what
    [convertCode] settles with on the heap is what the function of its
    arguments gives. *)
Theorem runs_are_deterministic (now1 now2 : nat)
  (earlier1 earlier2 : list (nat * call number)) (h1 h2 : heap)
  (c : call number) :
  let before1 := snd (session' earlier1 h1) in
  let before2 := snd (session' earlier2 h2) in
  returned (fst (perform' now1 c before1))
    = returned (fst (perform' now2 c before2)) /\
  (exists objects,
      snd (perform' now1 c before1) = before1 ++ objects /\
      Forall (fun re => lastIndex re = 0) objects) /\
  (forall code sourceLanguage targetLanguage mode,
      fst (convertCode_on_heap now1 code sourceLanguage targetLanguage mode
             before1)
      = convertCode now1 code sourceLanguage targetLanguage mode).
Proof.
  cbv zeta.
  destruct (perform_spec now1 c (snd (session' earlier1 h1)))
    as [a1 [o1 [E1 [F1 R1]]]].
  destruct (perform_spec now2 c (snd (session' earlier2 h2)))
    as [a2 [o2 [E2 [F2 R2]]]].
  rewrite E1, E2. cbn [fst snd]. split; [congruence|].
  split; [now exists o1|].
  intros code sourceLanguage targetLanguage mode.
  destruct mode; cbn [convertCode_on_heap]; unfold bind_heap;
    [reflexivity|].
  now rewrite fixLogicalErrors_on_heap_spec.
Qed.

End Determinism.
